(** * The tile/turn engine of the GWC 2024 map puzzle (main.py)

    A shallow embedding of [main.py]: tiles, items, blocks, the map builder,
    the player and [take_turn], together with the level catalogue.

    Conventions.
    - Python integers are [Z]; list subscripts follow Python (a negative
      subscript counts from the end, anything else out of range raises
      [IndexError]).
    - The player and the map are mutable objects; the code is embedded in a
      state-and-exception monad [M] over a [World] holding the player, the
      map it points to, the pending console input and a log of the calls the
      properties talk about ([Block.enter], [Block.leave], [Player.lose],
      [Player.win] and the dehydration branch).  A raised exception keeps the
      mutations done before it, as in Python.
    - A block object is referred to by its (row, column) place in
      [Map.blocks]; every tile and item is created with the block that owns
      it ([tilegen(self)], [item(self)], [Water(self.block)]), so the
      back-reference [self.block] of a tile or an item is that place.
    - Drawing calls and [print] output are not part of the model. *)

From Stdlib Require Import ZArith.
From stdpp Require Import base strings list gmap.

Local Open Scope Z_scope.

(** ** Data *)

Inductive TileType :=
  | Grass | Ice | Water | Rock | RockFloor | Teleporter | Sludge | Lava
  | HealBlock | OneTimeHeal | QuickSand.

(** [Item] is the base class (its [enter] does nothing), [Key] its subclass. *)
Inductive Item := PlainItem | Key.

Record Block := mkBlock {
  Block_tiletype : TileType;
  Block_item : option Item;
  Block_has_player : bool;
  Block_x : Z;
  Block_y : Z
}.

Record Player := mkPlayer {
  health : Z;
  currency : Z;
  hydration : Z;
  inventory : list string;
  Player_x : Z;
  Player_y : Z;
  game_over : bool;
  chosen_level : option string;
  move_direction : option string
}.

Record Map := mkMap {
  Map_name : string;
  win_condition : Player -> bool;
  blocks : list (list Block)
}.

(** One entry of the [maps] dictionary. *)
Record Template := mkTemplate {
  player_start_x : Z;
  player_start_y : Z;
  tpl_win_condition : Player -> bool;
  tpl_terrain : list (list Z);
  tpl_items : list (list Z)
}.

Inductive exn := IndexError | KeyError | ZeroDivisionError | EOFError | AttributeError.

Inductive result (A : Type) :=
  | Ret (a : A)
  | Raise (e : exn).
Arguments Ret {A} a.
Arguments Raise {A} e.

Inductive Event :=
  | CallEnter (bx by_ : Z)
  | CallLeave (bx by_ : Z)
  | CallLose
  | CallWin
  | Dehydrated.

Record World := mkWorld {
  player : Player;
  map : option Map;
  stdin : list string;
  trace : list Event
}.

#[global] Instance TileType_eq_dec : EqDecision TileType.
Proof. solve_decision. Defined.
#[global] Instance Item_eq_dec : EqDecision Item.
Proof. solve_decision. Defined.
#[global] Instance Block_eq_dec : EqDecision Block.
Proof. solve_decision. Defined.
#[global] Instance exn_eq_dec : EqDecision exn.
Proof. solve_decision. Defined.
#[global] Instance Event_eq_dec : EqDecision Event.
Proof. solve_decision. Defined.

(** ** Field updates *)

Definition set_health (v : Z) (p : Player) : Player :=
  mkPlayer v (currency p) (hydration p) (inventory p) (Player_x p) (Player_y p)
           (game_over p) (chosen_level p) (move_direction p).
Definition set_currency (v : Z) (p : Player) : Player :=
  mkPlayer (health p) v (hydration p) (inventory p) (Player_x p) (Player_y p)
           (game_over p) (chosen_level p) (move_direction p).
Definition set_hydration (v : Z) (p : Player) : Player :=
  mkPlayer (health p) (currency p) v (inventory p) (Player_x p) (Player_y p)
           (game_over p) (chosen_level p) (move_direction p).
Definition set_inventory (v : list string) (p : Player) : Player :=
  mkPlayer (health p) (currency p) (hydration p) v (Player_x p) (Player_y p)
           (game_over p) (chosen_level p) (move_direction p).
Definition set_x (v : Z) (p : Player) : Player :=
  mkPlayer (health p) (currency p) (hydration p) (inventory p) v (Player_y p)
           (game_over p) (chosen_level p) (move_direction p).
Definition set_y (v : Z) (p : Player) : Player :=
  mkPlayer (health p) (currency p) (hydration p) (inventory p) (Player_x p) v
           (game_over p) (chosen_level p) (move_direction p).
Definition set_game_over (v : bool) (p : Player) : Player :=
  mkPlayer (health p) (currency p) (hydration p) (inventory p) (Player_x p) (Player_y p)
           v (chosen_level p) (move_direction p).
Definition set_chosen_level (v : option string) (p : Player) : Player :=
  mkPlayer (health p) (currency p) (hydration p) (inventory p) (Player_x p) (Player_y p)
           (game_over p) v (move_direction p).
Definition set_move_direction (v : option string) (p : Player) : Player :=
  mkPlayer (health p) (currency p) (hydration p) (inventory p) (Player_x p) (Player_y p)
           (game_over p) (chosen_level p) v.

Definition Block_with_tile (t : TileType) (b : Block) : Block :=
  mkBlock t (Block_item b) (Block_has_player b) (Block_x b) (Block_y b).
Definition Block_with_item (i : option Item) (b : Block) : Block :=
  mkBlock (Block_tiletype b) i (Block_has_player b) (Block_x b) (Block_y b).
Definition Block_with_has_player (f : bool) (b : Block) : Block :=
  mkBlock (Block_tiletype b) (Block_item b) f (Block_x b) (Block_y b).

Definition with_player (p : Player) (w : World) : World :=
  mkWorld p (map w) (stdin w) (trace w).
Definition with_map (m : option Map) (w : World) : World :=
  mkWorld (player w) m (stdin w) (trace w).
Definition with_stdin (l : list string) (w : World) : World :=
  mkWorld (player w) (map w) l (trace w).
Definition with_trace (t : list Event) (w : World) : World :=
  mkWorld (player w) (map w) (stdin w) t.
Definition Map_with_blocks (bl : list (list Block)) (m : Map) : Map :=
  mkMap (Map_name m) (win_condition m) bl.

(** ** The monad *)

Definition M (A : Type) : Type := World -> result A * World.

#[global] Instance M_ret : MRet M := fun A a w => (Ret a, w).
#[global] Instance M_bind : MBind M := fun A B f m w =>
  match m w with
  | (Ret a, w') => f a w'
  | (Raise e, w') => (Raise e, w')
  end.

Definition raise {A} (e : exn) : M A := fun w => (Raise e, w).
Definition get_player : M Player := fun w => (Ret (player w), w).
Definition modify_player (f : Player -> Player) : M unit :=
  fun w => (Ret tt, with_player (f (player w)) w).
Definition emit (ev : Event) : M unit :=
  fun w => (Ret tt, with_trace (trace w ++ [ev]) w).
(** [self.map.<attr>]: [AttributeError] while [map] is still [None]. *)
Definition get_map : M Map := fun w =>
  match map w with
  | Some m => (Ret m, w)
  | None => (Raise AttributeError, w)
  end.
Definition put_map (m : Map) : M unit := fun w => (Ret tt, with_map (Some m) w).
(** [raw_input(...)]: the next pending line, [EOFError] when there is none. *)
Definition raw_input : M string := fun w =>
  match stdin w with
  | [] => (Raise EOFError, w)
  | l :: ls => (Ret l, with_stdin ls w)
  end.

(** ** Python subscripts *)

(** The place a subscript [i] denotes in a sequence of length [n]. *)
Definition py_norm (n : nat) (i : Z) : option nat :=
  if (0 <=? i) && (i <? Z.of_nat n) then Some (Z.to_nat i)
  else if (i <? 0) && (- Z.of_nat n <=? i) then Some (Z.to_nat (i + Z.of_nat n))
  else None.

Definition py_index {A} (l : list A) (i : Z) : result A :=
  match py_norm (length l) i with
  | Some k => match l !! k with Some a => Ret a | None => Raise IndexError end
  | None => Raise IndexError
  end.

(** A reference to the block object [self.map.blocks[yy][xx]]. *)
Definition BlockRef : Type := nat * nat.

Definition locate_in (bl : list (list Block)) (yy xx : Z) : result BlockRef :=
  match py_norm (length bl) yy with
  | None => Raise IndexError
  | Some r =>
      match bl !! r with
      | None => Raise IndexError
      | Some row =>
          match py_norm (length row) xx with
          | None => Raise IndexError
          | Some c => Ret (r, c)
          end
      end
  end.

Definition locate (yy xx : Z) : M BlockRef := fun w =>
  match map w with
  | Some m => (locate_in (blocks m) yy xx, w)
  | None => (Raise AttributeError, w)
  end.

Definition block_at (bl : list (list Block)) (ref : BlockRef) : option Block :=
  row ← bl !! ref.1; row !! ref.2.

Definition alter_block (f : Block -> Block) (ref : BlockRef)
    (bl : list (list Block)) : list (list Block) :=
  alter (alter f ref.2) ref.1 bl.

Definition read_block (ref : BlockRef) : M Block :=
  m ← get_map;
  match block_at (blocks m) ref with
  | Some b => mret b
  | None => raise IndexError
  end.

Definition modify_block (ref : BlockRef) (f : Block -> Block) : M unit := fun w =>
  match map w with
  | Some m => (Ret tt, with_map (Some (Map_with_blocks (alter_block f ref (blocks m)) m)) w)
  | None => (Raise AttributeError, w)
  end.

(** The exception monad of code that does not touch the world. *)
#[global] Instance result_ret : MRet result := fun A a => Ret a.
#[global] Instance result_bind : MBind result := fun A B f r =>
  match r with
  | Ret a => f a
  | Raise e => Raise e
  end.

Definition lift {A} (r : result A) : M A := fun w => (r, w).

(** [d[k]] on a dictionary. *)
Definition dict_get `{Countable K} {V} (d : gmap K V) (k : K) : result V :=
  match d !! k with
  | Some v => Ret v
  | None => Raise KeyError
  end.

(** ** Tiles *)

(** [Player.has]. *)
Definition Player_has (name : string) (p : Player) : bool :=
  bool_decide (name ∈ inventory p).

(** [Player.claim]. *)
Definition Player_claim (name : string) : M unit :=
  modify_player (fun p => set_inventory (inventory p ++ [name]) p).

(** [can_enter] of each tile class: [Water] and [Rock] override the default. *)
Definition TileType_can_enter (t : TileType) (p : Player) : bool :=
  match t with
  | Water => Player_has "flippers" p
  | Rock => false
  | _ => true
  end.

(** [can_leave]: no tile class overrides the default. *)
Definition TileType_can_leave (t : TileType) (p : Player) : bool := true.

(** [Block.set_tile], [Block.set_item]. *)
Definition Block_set_tile (self : BlockRef) (t : TileType) : M unit :=
  modify_block self (Block_with_tile t).
Definition Block_set_item (self : BlockRef) (i : option Item) : M unit :=
  modify_block self (Block_with_item i).

(** [enter] of each tile class; [self_block] is the tile's [self.block]. *)
Definition TileType_enter (t : TileType) (self_block : BlockRef) : M unit :=
  match t with
  | Water => modify_player (set_hydration 100)
  | Sludge => modify_player (fun p => set_health (health p - 8) p)
  | _ => mret tt
  end.

(** [leave] of each tile class: only [Ice] overrides the default. *)
Definition TileType_leave (t : TileType) (self_block : BlockRef) : M unit :=
  match t with
  | Ice => Block_set_tile self_block Water
  | _ => mret tt
  end.

(** ** Items *)

Definition item_name (i : Item) : string :=
  match i with
  | PlainItem => "unset"
  | Key => "key"
  end.

(** [Item.claim]. *)
Definition Item_claim (i : Item) (self_block : BlockRef) : M unit :=
  Player_claim (item_name i);;
  Block_set_item self_block None.

(** [enter] of each item class. *)
Definition Item_enter (i : Item) (self_block : BlockRef) : M unit :=
  match i with
  | PlainItem => mret tt
  | Key => Item_claim Key self_block
  end.

(** ** Blocks *)

Definition Block_can_enter (self : BlockRef) : M bool :=
  b ← read_block self;
  p ← get_player;
  mret (TileType_can_enter (Block_tiletype b) p).

Definition Block_can_leave (self : BlockRef) : M bool :=
  b ← read_block self;
  p ← get_player;
  mret (TileType_can_leave (Block_tiletype b) p).

Definition Block_enter (self : BlockRef) : M unit :=
  b ← read_block self;
  emit (CallEnter (Block_x b) (Block_y b));;
  TileType_enter (Block_tiletype b) self;;
  b' ← read_block self;
  match Block_item b' with
  | Some it => Item_enter it self
  | None => mret tt
  end;;
  modify_block self (Block_with_has_player true).

Definition Block_leave (self : BlockRef) : M unit :=
  b ← read_block self;
  emit (CallLeave (Block_x b) (Block_y b));;
  TileType_leave (Block_tiletype b) self;;
  modify_block self (Block_with_has_player false).

(** ** The registries and the level catalogue *)

Definition screen_side_length : Z := 400.
(** The module-level [chosen_level]. *)
Definition global_chosen_level : option string := None.

Definition terrain : gmap Z TileType :=
  list_to_map
    [(0, Grass); (1, Ice); (2, Water); (3, Rock); (4, RockFloor); (5, Teleporter);
     (6, Sludge); (7, Lava); (8, HealBlock); (9, OneTimeHeal); (10, QuickSand)].

Definition item : gmap Z (option Item) :=
  list_to_map [(0, None); (1, Some Key)].

(** [x.inventory.count("key") == n]. *)
Definition count_keys (p : Player) : Z :=
  Z.of_nat (length (filter (fun s => s = "key"%string) (inventory p))).
Definition keys_equal (n : Z) (p : Player) : bool := count_keys p =? n.

Definition demo : Template :=
  mkTemplate 2 0 (keys_equal 3)
    [[2; 2; 1; 2; 2; 2];
     [2; 1; 1; 2; 2; 2];
     [1; 1; 2; 2; 1; 1];
     [1; 1; 1; 1; 1; 1];
     [2; 2; 2; 2; 2; 1];
     [2; 2; 2; 2; 1; 1]]
    [[0; 0; 0; 0; 0; 0];
     [0; 0; 0; 0; 0; 0];
     [1; 0; 0; 0; 0; 1];
     [0; 0; 0; 0; 0; 0];
     [0; 0; 0; 0; 0; 0];
     [0; 0; 0; 0; 1; 0]].

Definition quicksand : Template :=
  mkTemplate 3 1 (keys_equal 3)
    [[10; 10; 10; 10; 10];
     [10; 10; 10; 10; 10];
     [10; 10; 10; 10; 10];
     [10; 10; 10; 10; 10];
     [10; 10; 10; 10; 10]]
    [[0; 0; 0; 0; 0];
     [0; 0; 0; 0; 0];
     [0; 1; 0; 0; 0];
     [0; 0; 0; 0; 0];
     [0; 0; 0; 1; 0]].

Definition teleport_across : Template :=
  mkTemplate 3 3 (keys_equal 1)
    [[0; 0; 0; 0; 0; 0; 0; 0; 0; 0; 0; 3; 3; 4; 4];
     [0; 0; 0; 0; 0; 0; 0; 0; 0; 0; 0; 3; 3; 4; 4];
     [0; 0; 0; 0; 0; 0; 0; 0; 0; 0; 0; 3; 4; 4; 4];
     [0; 0; 0; 0; 0; 0; 0; 0; 0; 0; 3; 3; 4; 4; 4];
     [0; 0; 0; 0; 0; 0; 0; 0; 0; 0; 3; 3; 3; 4; 4];
     [0; 0; 0; 0; 0; 0; 0; 0; 0; 3; 3; 3; 3; 4; 4];
     [0; 0; 0; 0; 0; 0; 0; 0; 0; 3; 3; 4; 4; 4; 4];
     [0; 0; 0; 0; 0; 0; 0; 0; 5; 3; 3; 4; 4; 4; 4];
     [0; 0; 0; 0; 0; 0; 0; 0; 0; 3; 3; 4; 4; 4; 4];
     [0; 0; 0; 0; 0; 0; 0; 0; 0; 3; 3; 4; 4; 4; 4];
     [0; 0; 0; 0; 0; 0; 0; 0; 0; 3; 3; 4; 4; 4; 4];
     [0; 0; 0; 0; 0; 0; 0; 0; 3; 3; 3; 4; 4; 4; 4];
     [0; 2; 2; 0; 0; 0; 0; 0; 3; 3; 4; 4; 4; 4; 4];
     [2; 2; 2; 2; 0; 0; 0; 0; 3; 3; 4; 4; 4; 4; 4];
     [2; 2; 2; 2; 2; 2; 0; 0; 3; 3; 3; 4; 4; 4; 4]]
    [[0; 0; 0; 0; 0; 0; 0; 0; 0; 0; 0; 0; 0; 0; 0];
     [0; 0; 0; 0; 0; 0; 0; 0; 0; 0; 0; 0; 0; 0; 0];
     [0; 0; 0; 0; 0; 0; 0; 0; 0; 0; 0; 0; 0; 0; 0];
     [0; 0; 0; 0; 0; 0; 0; 0; 0; 0; 0; 0; 0; 0; 0];
     [0; 0; 0; 0; 0; 0; 0; 0; 0; 0; 0; 0; 0; 0; 0];
     [0; 0; 0; 0; 0; 0; 0; 0; 0; 0; 0; 0; 0; 0; 0];
     [0; 0; 0; 0; 0; 0; 0; 0; 0; 0; 0; 0; 0; 0; 0];
     [0; 0; 0; 0; 0; 0; 0; 0; 0; 0; 0; 0; 0; 0; 0];
     [0; 0; 0; 0; 0; 0; 0; 0; 0; 0; 0; 0; 0; 1; 0];
     [0; 0; 0; 0; 0; 0; 0; 0; 0; 0; 0; 0; 0; 0; 0];
     [0; 0; 0; 0; 0; 0; 0; 0; 0; 0; 0; 0; 0; 0; 0];
     [0; 0; 0; 0; 0; 0; 0; 0; 0; 0; 0; 0; 0; 0; 0];
     [0; 0; 0; 0; 0; 0; 0; 0; 0; 0; 0; 0; 0; 0; 0];
     [0; 0; 0; 0; 0; 0; 0; 0; 0; 0; 0; 0; 0; 0; 0];
     [0; 0; 0; 0; 0; 0; 0; 0; 0; 0; 0; 0; 0; 0; 0]].

Definition sludge_lavafields : Template :=
  mkTemplate 3 0 (keys_equal 2)
    [[6; 6; 6; 4; 6; 6; 7];
     [6; 7; 7; 7; 6; 6; 7];
     [6; 7; 7; 7; 6; 7; 3];
     [6; 6; 3; 6; 6; 3; 4];
     [3; 6; 3; 6; 7; 6; 6];
     [4; 4; 4; 6; 6; 6; 7];
     [4; 4; 4; 4; 6; 7; 7]]
    [[0; 0; 0; 0; 0; 0; 0];
     [0; 0; 0; 0; 0; 0; 0];
     [0; 0; 0; 0; 0; 0; 0];
     [0; 0; 0; 0; 0; 0; 1];
     [0; 0; 0; 0; 0; 0; 0];
     [0; 1; 0; 0; 0; 0; 0];
     [0; 0; 0; 0; 0; 0; 0]].

Definition heal_corridor : Template :=
  mkTemplate 0 1 (keys_equal 1)
    [[3; 3; 3; 3; 3; 3; 3];
     [4; 6; 6; 6; 6; 6; 3];
     [3; 3; 3; 3; 3; 6; 8];
     [3; 6; 6; 6; 6; 6; 3];
     [8; 6; 3; 3; 3; 3; 3];
     [3; 6; 6; 6; 6; 8; 3];
     [3; 3; 3; 3; 3; 3; 3]]
    [[0; 0; 0; 0; 0; 0; 0];
     [0; 0; 0; 0; 0; 0; 0];
     [0; 0; 0; 0; 0; 0; 0];
     [0; 0; 0; 0; 0; 0; 0];
     [0; 0; 0; 0; 0; 0; 0];
     [0; 0; 0; 0; 0; 1; 0];
     [0; 0; 0; 0; 0; 0; 0]].

Definition maps : gmap string Template :=
  list_to_map
    [("demo"%string, demo); ("quicksand"%string, quicksand);
     ("teleport_across"%string, teleport_across);
     ("sludge_lavafields"%string, sludge_lavafields);
     ("heal_corridor"%string, heal_corridor)].

(** ** The map builder *)

(** The body of the inner loop of [Map.__init__] at row [yy], column [xx]:
    the arguments of [Block(...)] are evaluated left to right. *)
Definition build_block (tpl : Template) (p : Player) (yy xx : nat) : result Block :=
  trow ← py_index (tpl_terrain tpl) (Z.of_nat yy);
  tcode ← py_index trow (Z.of_nat xx);
  tile ← dict_get terrain tcode;
  irow ← py_index (tpl_items tpl) (Z.of_nat yy);
  icode ← py_index irow (Z.of_nat xx);
  it ← dict_get item icode;
  mret (mkBlock tile it
          (bool_decide (Z.of_nat xx = Player_x p ∧ Z.of_nat yy = Player_y p))
          (Z.of_nat xx) (Z.of_nat yy)).

Definition build_row (tpl : Template) (p : Player) (map_width yy : nat)
    : result (list Block) :=
  mapM (build_block tpl p yy) (seq 0 map_width).

(** [Map.__init__] on a template already looked up. *)
Definition Map_build (map_name : string) (tpl : Template) (p : Player) : result Map :=
  let map_height := length (tpl_terrain tpl) in
  row0 ← py_index (tpl_terrain tpl) 0;
  let map_width := length row0 in
  (* screen_side_length/map_width *)
  if bool_decide (map_width = 0%nat) then Raise ZeroDivisionError
  else
    bl ← mapM (build_row tpl p map_width) (seq 0 map_height);
    mret (mkMap map_name (tpl_win_condition tpl) bl).

(** [Map(map_name, player)]. *)
Definition Map_init (map_name : string) (p : Player) : result Map :=
  tpl ← dict_get maps map_name;
  Map_build map_name tpl p.

(** ** The player *)

(** The class attributes of [Player]. *)
Definition Player_new : Player :=
  mkPlayer 100 0 100 [] 0 0 false None None.

(** [self.chosen_level not in maps.keys()], negated. *)
Definition level_known (lvl : option string) : bool :=
  match lvl with
  | Some n => bool_decide (is_Some (maps !! n))
  | None => false
  end.

(** The loop of [Player.choose_level] over the pending input lines. *)
Fixpoint choose_level_loop (lines : list string) (cur : option string)
    : result unit * option string * list string :=
  if level_known cur then (Ret tt, cur, lines)
  else
    match lines with
    | [] => (Raise EOFError, cur, [])
    | l :: rest => choose_level_loop rest (Some l)
    end.

Definition choose_level : M unit := fun w =>
  let '(r, cur, rest) := choose_level_loop (stdin w) (chosen_level (player w)) in
  (r, with_stdin rest (with_player (set_chosen_level cur (player w)) w)).

(** [maps[self.chosen_level]]. *)
Definition level_template : M Template :=
  p ← get_player;
  match chosen_level p with
  | Some n => lift (dict_get maps n)
  | None => raise KeyError
  end.

Definition start_level : M unit :=
  tpl ← level_template;
  modify_player (set_x (player_start_x tpl));;
  tpl ← level_template;
  modify_player (set_y (player_start_y tpl));;
  modify_player (set_health 100);;
  modify_player (set_currency 0);;
  modify_player (set_inventory []);;
  p ← get_player;
  match chosen_level p with
  | Some n => m ← lift (Map_init n p); put_map m
  | None => raise KeyError
  end.

Definition Player_win : M unit :=
  emit CallWin;;
  modify_player (set_game_over true).

Definition Player_lose : M unit :=
  emit CallLose;;
  modify_player (set_game_over true).

Definition new_x (dir : string) (p : Player) : Z :=
  if String.eqb dir "left" then Player_x p - 1
  else if String.eqb dir "right" then Player_x p + 1
  else Player_x p.

Definition new_y (dir : string) (p : Player) : Z :=
  if String.eqb dir "left" then Player_y p
  else if String.eqb dir "right" then Player_y p
  else if String.eqb dir "up" then Player_y p - 1
  else if String.eqb dir "down" then Player_y p + 1
  else Player_y p.

(** The condition of the [if] at lines 293-295, with the short-circuit
    order of [and]: [len(self.map.blocks)] bounds [new_x] and
    [len(self.map.blocks[0])] bounds [new_y]. *)
Definition may_move (nx ny : Z) : M bool :=
  if nx >? -1 then
    m ← get_map;
    if nx <? Z.of_nat (length (blocks m)) then
      if ny >? -1 then
        m ← get_map;
        row0 ← lift (py_index (blocks m) 0);
        if ny <? Z.of_nat (length row0) then
          dest ← locate ny nx;
          Block_can_enter dest
        else mret false
      else mret false
    else mret false
  else mret false.

(** Lines 296-299 of [take_turn]: the body of the [if]. *)
Definition do_move (nx ny : Z) : M unit :=
  p ← get_player;
  cur ← locate (Player_y p) (Player_x p);
  Block_leave cur;;
  dest ← locate ny nx;
  Block_enter dest;;
  modify_player (set_x nx);;
  modify_player (set_y ny).

(** Lines 283-299 of [take_turn]. *)
Definition attempt_move (dir : string) : M unit :=
  p ← get_player;
  let nx := new_x dir p in
  let ny := new_y dir p in
  ok ← may_move nx ny;
  if (ok : bool) then do_move nx ny else mret tt.

(** Lines 300-306 of [take_turn]: three independent [if] statements. *)
Definition end_of_turn : M unit :=
  p ← get_player;
  (if health p <=? 0 then Player_lose else mret tt);;
  p ← get_player;
  (if hydration p <? 10 then
     modify_player (fun p => set_health (health p - 2) p);;
     emit Dehydrated
   else mret tt);;
  m ← get_map;
  p ← get_player;
  if win_condition m p then Player_win else mret tt.

(** Lines 274-279 of [take_turn]. *)
Definition reset_level : M unit :=
  modify_player (set_chosen_level None);;
  choose_level;;
  start_level;;
  modify_player (set_game_over false).

Definition take_turn (dir : string) : M unit :=
  p ← get_player;
  if game_over p then reset_level
  else
    modify_player (set_move_direction (Some dir));;
    p ← get_player;
    cur ← locate (Player_y p) (Player_x p);
    can ← Block_can_leave cur;
    if negb can then mret tt
    else
      (attempt_move dir;;
       end_of_turn : M unit).

(** ** Program entry points *)

(** [setup]: a new [Player] replaces the global one. *)
Definition setup : M unit :=
  (fun w => (Ret tt, with_map None (with_player Player_new w)));;
  match global_chosen_level with
  | None => choose_level
  | Some lvl => modify_player (set_chosen_level (Some lvl))
  end;;
  start_level.

Definition keyPressed (key : string) : M unit :=
  if String.eqb key "w" then take_turn "up"
  else if String.eqb key "a" then take_turn "left"
  else if String.eqb key "s" then take_turn "down"
  else if String.eqb key "d" then take_turn "right"
  else if String.eqb key "q" then setup
  else mret tt.

(** The world before [setup] has run: nothing logged, no player yet (the
    [player] field is overwritten by [setup]). *)
Definition boot (lines : list string) : World :=
  mkWorld Player_new None lines [].

(** The worlds the program can be in after [setup] and any key presses. *)
Inductive reachable : World -> Prop :=
  | reach_setup lines : reachable (setup (boot lines)).2
  | reach_key w key : reachable w -> reachable (keyPressed key w).2.

Definition run_keys (keys : list string) (w : World) : World :=
  foldl (fun w k => (keyPressed k w).2) w keys.

Definition demo_world : World := (setup (boot ["demo"%string])).2.

(** * Vocabulary of the properties *)

Definition grid_height (bl : list (list Block)) : Z := Z.of_nat (length bl).

Definition grid_width (bl : list (list Block)) : Z :=
  match bl with
  | [] => 0
  | row :: _ => Z.of_nat (length row)
  end.

(** Every row is as long as the first one, as [Map.__init__] builds them. *)
Definition rectangular (bl : list (list Block)) : Prop :=
  Forall (fun row => Z.of_nat (length row) = grid_width bl) bl.

(** The row lengths: what subscripting depends on. *)
Definition shape (bl : list (list Block)) : list nat := length <$> bl.

Definition is_move_event (ev : Event) : bool :=
  match ev with
  | CallEnter _ _ | CallLeave _ _ => true
  | _ => false
  end.

(** The effect of a tile's [enter] on the player. *)
Definition tile_enter_player (t : TileType) (p : Player) : Player :=
  match t with
  | Water => set_hydration 100 p
  | Sludge => set_health (health p - 8) p
  | _ => p
  end.

(** The effect of an item's [enter] on the player. *)
Definition item_enter_player (i : option Item) (p : Player) : Player :=
  match i with
  | Some Key => set_inventory (inventory p ++ ["key"%string]) p
  | _ => p
  end.

(** The player after [Block.enter] on block [b]. *)
Definition entered_player (b : Block) (p : Player) : Player :=
  item_enter_player (Block_item b) (tile_enter_player (Block_tiletype b) p).

(** Block [b] after [Block.enter]. *)
Definition entered_block (b : Block) : Block :=
  Block_with_has_player true
    match Block_item b with
    | Some Key => Block_with_item None b
    | _ => b
    end.

(** Block [b] after [Block.leave]. *)
Definition left_block (b : Block) : Block :=
  Block_with_has_player false
    match Block_tiletype b with
    | Ice => Block_with_tile Water b
    | _ => b
    end.

(** The world after the body of the [if]: [leave] on the player's block
    [cur] (holding [bc]), then [enter] on [dest], whose block is read after
    the [leave]. *)
Definition moved_world (w : World) (m : Map) (cur dest : BlockRef)
    (bc bd : Block) (nx ny : Z) : World :=
  mkWorld (set_y ny (set_x nx (entered_player bd (player w))))
    (Some (Map_with_blocks
             (alter_block entered_block dest
                (alter_block left_block cur (blocks m))) m))
    (stdin w)
    ((trace w ++ [CallLeave (Block_x bc) (Block_y bc)])
       ++ [CallEnter (Block_x bd) (Block_y bd)]).

(** The player after lines 300-306, for the map [m]. *)
Definition after_lose_check (p : Player) : Player :=
  if health p <=? 0 then set_game_over true p else p.

Definition after_dehydration (p : Player) : Player :=
  if hydration p <? 10 then set_health (health p - 2) p else p.

Definition after_win_check (m : Map) (p : Player) : Player :=
  if win_condition m p then set_game_over true p else p.

Definition end_of_turn_events (m : Map) (p : Player) : list Event :=
  (if health p <=? 0 then [CallLose] else []) ++
  (if hydration p <? 10 then [Dehydrated] else []) ++
  (if win_condition m (after_dehydration (after_lose_check p)) then [CallWin] else []).

(** What a turn leaves alone when the test of the [if] does not succeed. *)
Definition stays_put (w w' : World) : Prop :=
  Player_x (player w') = Player_x (player w) ∧
  Player_y (player w') = Player_y (player w) ∧
  inventory (player w') = inventory (player w) ∧
  hydration (player w') = hydration (player w) ∧
  map w' = map w ∧
  ∃ evs, trace w' = trace w ++ evs ∧ Forall (fun e => is_move_event e = false) evs.

(** The map of the freshly started "demo" level. *)
Definition demo_map : Map := default (mkMap "" (fun _ => false) []) (map demo_world).

(** "heal_corridor" right after [setup]: the player is at (0, 1), below a
    row of [Rock]. *)
Definition corridor_world : World := (setup (boot ["heal_corridor"%string])).2.

Definition corridor_map : Map :=
  default (mkMap "" (fun _ => false) []) (map corridor_world).

(** The player as [start_level] leaves it for template [tpl]. *)
Definition started (tpl : Template) (p : Player) : Player :=
  set_inventory [] (set_currency 0 (set_health 100
    (set_y (player_start_y tpl) (set_x (player_start_x tpl) p)))).

(** A level of template [tpl] right after [start_level], outside the
    catalogue: the map is what [Map.__init__] builds from [tpl]. *)
Definition world_of (tpl : Template) : World :=
  match Map_build "custom" tpl (started tpl Player_new) with
  | Ret m => mkWorld (started tpl Player_new) (Some m) [] []
  | Raise _ => boot []
  end.

(** Two columns by three rows of Grass, the player at (1, 0). *)
Definition tall_template : Template :=
  mkTemplate 1 0 (keys_equal 1)
    [[0; 0]; [0; 0]; [0; 0]]
    [[0; 0]; [0; 0]; [0; 0]].

(** Three columns by two rows of Grass, the player at (1, 0). *)
Definition wide_template : Template :=
  mkTemplate 1 0 (keys_equal 1)
    [[0; 0; 0]; [0; 0; 0]]
    [[0; 0; 0]; [0; 0; 0]].

(** At an actual move, [cur] is the player's block (holding [bc]) and the
    destination block, read after [leave] has run on [cur], holds [bd]. *)
Definition is_move (dir : string) (w : World) (m : Map)
    (cur : BlockRef) (bc bd : Block) : Prop :=
  0 <= new_x dir (player w) ∧ 0 <= new_y dir (player w) ∧
  locate_in (blocks m) (Player_y (player w)) (Player_x (player w)) = Ret cur ∧
  block_at (blocks m) cur = Some bc ∧
  block_at (alter_block left_block cur (blocks m))
    (Z.to_nat (new_y dir (player w)), Z.to_nat (new_x dir (player w))) = Some bd ∧
  ∃ d, block_at (blocks m)
         (Z.to_nat (new_y dir (player w)), Z.to_nat (new_x dir (player w))) = Some d ∧
       TileType_can_enter (Block_tiletype d) (player w) = true.

Definition turn_start (dir : string) (w : World) : World :=
  with_player (set_move_direction (Some dir) (player w)) w.

Definition tile_at (w : World) (xx yy : nat) : option TileType :=
  m ← map w; b ← block_at (blocks m) (yy, xx); Some (Block_tiletype b).

Definition tile_of (w : World) (ref : BlockRef) : option TileType :=
  m ← map w; b ← block_at (blocks m) ref; Some (Block_tiletype b).

Definition item_of (w : World) (ref : BlockRef) : option (option Item) :=
  m ← map w; b ← block_at (blocks m) ref; Some (Block_item b).

(** [plays_on w w']: [w'] comes from [w] by turns taken while the game is
    running (no reset in between). *)
Inductive plays_on (w : World) : World -> Prop :=
  | plays_here : plays_on w w
  | plays_turn w' dir :
      plays_on w w' -> game_over (player w') = false ->
      plays_on w (take_turn dir w').2.

(** A player carrying flippers with hydration 3, on the "demo" map. *)
Definition thirsty_world : World :=
  mkWorld (mkPlayer 100 0 3 ["flippers"%string] 2 0 false (Some "demo"%string) None)
    (Some demo_map) [] [].

(** The end-of-turn checks in the order C3 words them: the dehydration
    penalty is the [else] branch of the loss check.  Written from the claim,
    to be compared with [end_of_turn], which is written from the code. *)
Definition end_of_turn_as_claimed : M unit :=
  p ← get_player;
  (if health p <=? 0 then Player_lose
   else if hydration p <? 10 then
     (modify_player (fun p => set_health (health p - 2) p);;
      emit Dehydrated : M unit)
   else mret tt);;
  m ← get_map;
  p ← get_player;
  if win_condition m p then Player_win else mret tt.

(** A player with health 0 and hydration 5 at the top edge of "demo". *)
Definition parched_world : World :=
  mkWorld (mkPlayer 0 0 5 [] 2 0 false (Some "demo"%string) None)
    (Some demo_map) [] [].

(** "sludge_lavafields", stepping between the start block and the Sludge on
    its left until the thirteenth Sludge step brings health to -4; the
    pending console input holds the level to play next. *)
Definition lost_world : World :=
  run_keys (concat (replicate 12 ["a"; "d"]%string) ++ ["a"%string])
    (setup (boot ["sludge_lavafields"; "demo"]%string)).2.

(** "demo" played to the end: the fifteen steps that collect the three keys
    over the Ice, each block melting behind the player; the pending console
    input asks for "demo" again. *)
Definition won_world : World :=
  run_keys ["s"; "a"; "s"; "a"; "s"; "d"; "d"; "d"; "d"; "w"; "d"; "s"; "s"; "s"; "a"]%string
    (setup (boot ["demo"; "demo"]%string)).2.

(** Every block of [bl] knows its own place, and a block flagged as holding
    the player sits at ([px], [py]). *)
Definition flags_ok (px py : Z) (bl : list (list Block)) : Prop :=
  ∀ r c b, block_at bl (r, c) = Some b ->
    Block_x b = Z.of_nat c ∧ Block_y b = Z.of_nat r ∧
    (Block_has_player b = true -> Z.of_nat c = px ∧ Z.of_nat r = py).

Definition world_ok (w : World) : Prop :=
  ∀ m, map w = Some m -> flags_ok (Player_x (player w)) (Player_y (player w)) (blocks m).

(** [R] relates the current hydration and the log. *)
Definition log_holds (R : Z -> list Event -> Prop) (w : World) : Prop :=
  R (hydration (player w)) (trace w).

(** Cell ([r], [c]) of a template has a terrain code and an item code, and
    both are keys of their registries. *)
Definition cell_ok (tpl : Template) (r c : nat) : bool :=
  match (tpl_terrain tpl !! r) ≫= (.!! c), (tpl_items tpl !! r) ≫= (.!! c) with
  | Some tcode, Some icode =>
      bool_decide (is_Some (terrain !! tcode)) && bool_decide (is_Some (item !! icode))
  | _, _ => false
  end.

(** The terrain grid has a first row, that row is not empty, and every cell
    of the rectangle it spans is [cell_ok]. *)
Definition template_ok (tpl : Template) : bool :=
  match tpl_terrain tpl with
  | [] => false
  | row0 :: _ =>
      negb (bool_decide (length row0 = 0%nat)) &&
      forallb (fun r => forallb (cell_ok tpl r) (seq 0 (length row0)))
        (seq 0 (length (tpl_terrain tpl)))
  end.

(** As many columns in every row as there are rows. *)
Definition square (bl : list (list Block)) : Prop :=
  Forall (fun row => length row = length bl) bl.

(** What holds of every world the program reaches over the shipped
    catalogue: full hydration, nothing but keys in the inventory and, once a
    map is there, a square grid, the player on a block of it that carries the
    flag, a win predicate counting keys up to a positive target, health
    above -8 and at most 100, and the game over exactly when health is spent
    or the predicate holds. *)
Definition shipped_inv (w : World) : Prop :=
  hydration (player w) = 100 ∧
  Forall (fun s => s = "key"%string) (inventory (player w)) ∧
  ∀ m, map w = Some m ->
    square (blocks m) ∧
    0 <= Player_x (player w) ∧ 0 <= Player_y (player w) ∧
    (∃ b, block_at (blocks m)
            (Z.to_nat (Player_y (player w)), Z.to_nat (Player_x (player w))) = Some b ∧
          Block_has_player b = true) ∧
    (∃ n, 1 <= n ∧ win_condition m = keys_equal n) ∧
    -8 < health (player w) <= 100 ∧
    game_over (player w) = (health (player w) <=? 0) || win_condition m (player w).

(** The map of [lost_world]. *)
Definition lost_map : Map := default (mkMap "" (fun _ => false) []) (map lost_world).

(** * Properties *)

Example demo_world_ok :
  (player demo_world, blocks <$> map demo_world, trace demo_world) =
  (mkPlayer 100 0 100 [] 2 0 false (Some "demo"%string) None,
   blocks <$> (match Map_build "demo" demo (set_y 0 (set_x 2 Player_new)) with Ret m => Some m | _ => None end), []).
Proof. vm_compute. reflexivity. Qed.

(** ** Grids *)

(** Boolean comparisons in hypotheses, as propositions. *)
Ltac zbool :=
  rewrite ?Z.gtb_ltb in *;
  repeat match goal with
  | H : (_ <? _) = true |- _ => apply Z.ltb_lt in H
  | H : (_ <? _) = false |- _ => apply Z.ltb_ge in H
  | H : (_ <=? _) = true |- _ => apply Z.leb_le in H
  | H : (_ <=? _) = false |- _ => apply Z.leb_gt in H
  | H : (_ =? _) = true |- _ => apply Z.eqb_eq in H
  | H : (_ =? _) = false |- _ => apply Z.eqb_neq in H
  end.

Lemma py_norm_nonneg n i k :
  0 <= i -> py_norm n i = Some k -> k = Z.to_nat i ∧ i < Z.of_nat n.
Proof.
  unfold py_norm. intros Hi.
  destruct (0 <=? i) eqn:E0; [|lia].
  destruct (i <? Z.of_nat n) eqn:E1; simpl.
  - intros [= <-]. lia.
  - destruct (i <? 0) eqn:E2; [lia|]. simpl. discriminate.
Qed.

Lemma py_norm_in_range n i :
  0 <= i < Z.of_nat n -> py_norm n i = Some (Z.to_nat i).
Proof.
  intros [H0 H1]. unfold py_norm.
  destruct (0 <=? i) eqn:E0; [|lia].
  destruct (i <? Z.of_nat n) eqn:E1; [reflexivity|lia].
Qed.

Lemma py_norm_at_length n : py_norm n (Z.of_nat n) = None.
Proof.
  unfold py_norm.
  rewrite Z.ltb_irrefl, andb_false_r.
  destruct (Z.of_nat n <? 0) eqn:E2; [zbool; lia|]. reflexivity.
Qed.

Lemma py_norm_lt n i k : py_norm n i = Some k -> (k < n)%nat.
Proof.
  unfold py_norm.
  destruct (0 <=? i) eqn:E0; destruct (i <? Z.of_nat n) eqn:E1; simpl;
    try (intros [= <-]; zbool; lia);
    destruct (i <? 0) eqn:E2; destruct (- Z.of_nat n <=? i) eqn:E3; simpl;
    try discriminate; intros [= <-]; zbool; lia.
Qed.

Lemma shape_length bl bl' : shape bl = shape bl' -> length bl = length bl'.
Proof.
  unfold shape. intros H.
  rewrite <- (length_fmap length bl), <- (length_fmap length bl'). by rewrite H.
Qed.

Lemma shape_lookup bl bl' r row :
  shape bl = shape bl' -> bl !! r = Some row ->
  ∃ row', bl' !! r = Some row' ∧ length row' = length row.
Proof.
  unfold shape. intros H Hr.
  assert (Hl : (length <$> bl) !! r = Some (length row)) by (by rewrite list_lookup_fmap, Hr).
  rewrite H, list_lookup_fmap in Hl.
  destruct (bl' !! r) as [row'|]; simplify_eq/=. eauto.
Qed.

Lemma shape_alter_block f ref bl : shape (alter_block f ref bl) = shape bl.
Proof.
  unfold shape, alter_block. apply list_eq. intros i.
  rewrite !list_lookup_fmap.
  destruct (decide (i = ref.1)) as [->|Hne].
  - rewrite list_lookup_alter_eq. destruct (bl !! ref.1); simpl; [|done].
    by rewrite length_alter.
  - by rewrite list_lookup_alter_ne.
Qed.

Lemma locate_in_shape bl bl' yy xx :
  shape bl = shape bl' -> locate_in bl yy xx = locate_in bl' yy xx.
Proof.
  intros H. unfold locate_in. rewrite (shape_length _ _ H).
  destruct (py_norm (length bl') yy) as [r|]; [|done].
  destruct (bl !! r) as [row|] eqn:Hr.
  - destruct (shape_lookup _ _ _ _ H Hr) as (row' & -> & ->). done.
  - destruct (bl' !! r) as [row'|] eqn:Hr'; [|done].
    destruct (shape_lookup _ _ _ _ (eq_sym H) Hr') as (? & ? & _). congruence.
Qed.

Lemma locate_in_Some bl yy xx ref :
  locate_in bl yy xx = Ret ref -> is_Some (block_at bl ref).
Proof.
  unfold locate_in, block_at.
  destruct (py_norm (length bl) yy) as [r|]; [|done].
  destruct (bl !! r) as [row|] eqn:Hr; [|done].
  destruct (py_norm (length row) xx) as [c|] eqn:Hc; [|done].
  intros [= <-]. simpl. rewrite Hr. simpl.
  apply lookup_lt_is_Some. by eapply py_norm_lt.
Qed.

Lemma locate_in_nonneg bl yy xx ref :
  0 <= yy -> 0 <= xx -> locate_in bl yy xx = Ret ref ->
  ref = (Z.to_nat yy, Z.to_nat xx).
Proof.
  unfold locate_in. intros Hy Hx.
  destruct (py_norm (length bl) yy) as [r|] eqn:Hr; [|done].
  destruct (bl !! r) as [row|]; [|done].
  destruct (py_norm (length row) xx) as [c|] eqn:Hc; [|done].
  intros [= <-].
  apply py_norm_nonneg in Hr as [-> _]; [|done].
  apply py_norm_nonneg in Hc as [-> _]; done.
Qed.

Lemma block_at_alter_eq f ref bl b :
  block_at bl ref = Some b -> block_at (alter_block f ref bl) ref = Some (f b).
Proof.
  unfold block_at, alter_block. destruct ref as [r c]; simpl.
  destruct (bl !! r) as [row|] eqn:Hr; simpl; [|done].
  intros Hc. rewrite list_lookup_alter_eq, Hr. simpl.
  by rewrite list_lookup_alter_eq, Hc.
Qed.

Lemma block_at_alter_ne f ref ref' bl :
  ref ≠ ref' -> block_at (alter_block f ref bl) ref' = block_at bl ref'.
Proof.
  unfold block_at, alter_block. destruct ref as [r c], ref' as [r' c']; simpl.
  intros Hne. destruct (decide (r = r')) as [->|Hr].
  - rewrite list_lookup_alter_eq. destruct (bl !! r'); simpl; [|done].
    rewrite list_lookup_alter_ne; [done|congruence].
  - by rewrite list_lookup_alter_ne.
Qed.

Lemma alter_block_compose f g ref bl :
  alter_block f ref (alter_block g ref bl) = alter_block (f ∘ g) ref bl.
Proof.
  unfold alter_block. rewrite list_alter_alter_eq.
  apply list_alter_ext; [|done]. intros row _. simpl. by rewrite list_alter_alter_eq.
Qed.

(** ** What the block callbacks do, as functions *)

Lemma alter_block_ext f g ref bl b :
  block_at bl ref = Some b -> f b = g b ->
  alter_block f ref bl = alter_block g ref bl.
Proof.
  unfold block_at, alter_block. destruct ref as [r c]; simpl.
  intros Hb Hfg. apply list_alter_ext; [|done]. intros row Hr.
  rewrite Hr in Hb. simpl in Hb.
  apply list_alter_ext; [|done]. intros b' Hb'. congruence.
Qed.

(** Two worlds that differ at most in their blocks. *)
Ltac same_blocks :=
  unfold with_map, with_trace, with_player, with_stdin, Map_with_blocks; simpl;
  match goal with
  | |- (_, mkWorld _ (Some (mkMap _ _ ?a)) _ _) =
       (_, mkWorld _ (Some (mkMap _ _ ?b)) _ _) =>
      let E := fresh "E" in
      assert (E : a = b); [|rewrite E; reflexivity]
  end.

Ltac unfold_M :=
  cbv beta iota zeta delta
    [mbind M_bind mret M_ret raise lift get_player modify_player
     emit get_map put_map read_block modify_block locate] in *.

Lemma Block_can_enter_run w m ref b :
  map w = Some m -> block_at (blocks m) ref = Some b ->
  Block_can_enter ref w = (Ret (TileType_can_enter (Block_tiletype b) (player w)), w).
Proof.
  intros Hm Hb. unfold Block_can_enter. unfold_M. by rewrite Hm, Hb.
Qed.

Lemma Block_can_leave_run w m ref b :
  map w = Some m -> block_at (blocks m) ref = Some b ->
  Block_can_leave ref w = (Ret true, w).
Proof.
  intros Hm Hb. unfold Block_can_leave. unfold_M. by rewrite Hm, Hb.
Qed.

Lemma Block_leave_run w m ref b :
  map w = Some m -> block_at (blocks m) ref = Some b ->
  Block_leave ref w =
    (Ret tt,
     mkWorld (player w)
       (Some (Map_with_blocks (alter_block left_block ref (blocks m)) m))
       (stdin w) (trace w ++ [CallLeave (Block_x b) (Block_y b)])).
Proof.
  intros Hm Hb. unfold Block_leave, TileType_leave, Block_set_tile. unfold_M.
  rewrite Hm, Hb. simpl.
  destruct (Block_tiletype b) eqn:Ht; simpl; rewrite ?Hm; simpl; same_blocks;
    rewrite ?alter_block_compose;
    apply (alter_block_ext _ _ _ _ b Hb); unfold left_block; simpl; by rewrite Ht.
Qed.

Lemma Block_enter_run w m ref b :
  map w = Some m -> block_at (blocks m) ref = Some b ->
  Block_enter ref w =
    (Ret tt,
     mkWorld (entered_player b (player w))
       (Some (Map_with_blocks (alter_block entered_block ref (blocks m)) m))
       (stdin w) (trace w ++ [CallEnter (Block_x b) (Block_y b)])).
Proof.
  intros Hm Hb.
  unfold Block_enter, TileType_enter, Item_enter, Item_claim, Player_claim,
    Block_set_item.
  unfold_M. rewrite Hm, Hb. simpl.
  unfold entered_player, tile_enter_player, item_enter_player.
  destruct (Block_tiletype b) eqn:Ht; simpl; rewrite ?Hm; simpl; rewrite ?Hb;
    simpl; (destruct (Block_item b) as [[|]|] eqn:Hi; simpl; rewrite ?Hm; simpl);
    same_blocks; rewrite ?alter_block_compose;
    apply (alter_block_ext _ _ _ _ b Hb); unfold entered_block; simpl;
    by rewrite Hi.
Qed.

(** ** What a turn does, phase by phase *)

Lemma locate_run w m yy xx :
  map w = Some m -> locate yy xx w = (locate_in (blocks m) yy xx, w).
Proof. intros Hm. unfold locate. by rewrite Hm. Qed.

(** The test of the [if] reads the world and does not change it. *)
Lemma may_move_world nx ny w : (may_move nx ny w).2 = w.
Proof.
  unfold may_move, Block_can_enter. unfold_M.
  destruct (nx >? -1); [|done].
  destruct (map w) as [m|] eqn:Hm; [|done].
  destruct (nx <? _); [|done].
  destruct (ny >? -1); [|done]. rewrite Hm.
  destruct (py_index (blocks m) 0) as [row0|]; [|done].
  destruct (ny <? _); [|done]. rewrite Hm.
  destruct (locate_in (blocks m) ny nx) as [dest|]; [|done]. rewrite Hm.
  destruct (block_at (blocks m) dest); done.
Qed.

(** When the test succeeds, both coordinates are non-negative, [new_x] is
    below the number of rows, [new_y] below the length of row 0, and the block
    [blocks[new_y][new_x]] exists and lets the player in. *)
Lemma may_move_true nx ny w m :
  map w = Some m -> (may_move nx ny w).1 = Ret true ->
  0 <= nx < grid_height (blocks m) ∧ 0 <= ny < grid_width (blocks m) ∧
  locate_in (blocks m) ny nx = Ret (Z.to_nat ny, Z.to_nat nx) ∧
  ∃ d, block_at (blocks m) (Z.to_nat ny, Z.to_nat nx) = Some d ∧
       TileType_can_enter (Block_tiletype d) (player w) = true.
Proof.
  intros Hm. unfold may_move, Block_can_enter. unfold_M.
  destruct (nx >? -1) eqn:E1; [|done]. rewrite Hm.
  destruct (nx <? _) eqn:E2; [|done].
  destruct (ny >? -1) eqn:E3; [|done]. rewrite Hm.
  destruct (py_index (blocks m) 0) as [row0|] eqn:Hrow0; [|done].
  destruct (ny <? _) eqn:E4; [|done]. rewrite Hm.
  destruct (locate_in (blocks m) ny nx) as [dest|] eqn:Hloc; [|done]. rewrite Hm.
  destruct (block_at (blocks m) dest) as [d|] eqn:Hd; [|done].
  simpl. intros [= Hcan]. zbool.
  assert (dest = (Z.to_nat ny, Z.to_nat nx)) as ->
    by (eapply locate_in_nonneg; [| |exact Hloc]; lia).
  assert (Hw : grid_width (blocks m) = Z.of_nat (length row0)).
  { unfold py_index, py_norm in Hrow0. unfold grid_width.
    destruct (blocks m) as [|r0 rest]; simpl in *; [done|].
    destruct (0 <? Z.pos (Pos.of_succ_nat (length rest))) eqn:E; simpl in *; [|zbool; lia].
    by simplify_eq. }
  unfold grid_height. repeat split; try lia; eauto.
Qed.

Lemma py_index_raise {A} (l : list A) i e : py_index l i = Raise e -> e = IndexError.
Proof. unfold py_index. repeat case_match; congruence. Qed.

Lemma locate_in_raise bl yy xx e : locate_in bl yy xx = Raise e -> e = IndexError.
Proof. unfold locate_in. repeat case_match; congruence. Qed.

(** The test either answers or raises [IndexError]. *)
Lemma may_move_outcome nx ny w m :
  map w = Some m ->
  (may_move nx ny w).1 = Ret true ∨ (may_move nx ny w).1 = Ret false ∨
  (may_move nx ny w).1 = Raise IndexError.
Proof.
  intros Hm. unfold may_move, Block_can_enter. unfold_M.
  destruct (nx >? -1); [|auto]. rewrite Hm.
  destruct (nx <? _); [|auto].
  destruct (ny >? -1); [|auto]. rewrite Hm.
  destruct (py_index (blocks m) 0) as [row0|e] eqn:Hrow0;
    [|apply py_index_raise in Hrow0 as ->; auto].
  destruct (ny <? _); [|auto]. rewrite Hm.
  destruct (locate_in (blocks m) ny nx) as [dest|e] eqn:Hloc;
    [|apply locate_in_raise in Hloc as ->; auto].
  rewrite Hm.
  destruct (block_at (blocks m) dest) as [d|] eqn:Hd; simpl; auto.
  destruct (TileType_can_enter _ _); auto.
Qed.

Lemma attempt_move_unfold dir w :
  attempt_move dir w =
    match (may_move (new_x dir (player w)) (new_y dir (player w)) w).1 with
    | Ret true => do_move (new_x dir (player w)) (new_y dir (player w)) w
    | Ret false => (Ret tt, w)
    | Raise e => (Raise e, w)
    end.
Proof.
  unfold attempt_move. unfold_M.
  pose proof (may_move_world (new_x dir (player w)) (new_y dir (player w)) w) as Hw.
  destruct (may_move _ _ w) as [[[|]|e] w']; simpl in *; by subst.
Qed.

Lemma do_move_run w m nx ny cur dest bc bd :
  map w = Some m ->
  locate_in (blocks m) (Player_y (player w)) (Player_x (player w)) = Ret cur ->
  block_at (blocks m) cur = Some bc ->
  locate_in (blocks m) ny nx = Ret dest ->
  block_at (alter_block left_block cur (blocks m)) dest = Some bd ->
  do_move nx ny w = (Ret tt, moved_world w m cur dest bc bd nx ny).
Proof.
  intros Hm Hcur Hbc Hdest Hbd. unfold do_move.
  unfold mbind at 1, M_bind at 1. unfold get_player at 1.
  unfold mbind at 1, M_bind at 1. rewrite (locate_run _ _ _ _ Hm), Hcur.
  unfold mbind at 1, M_bind at 1. rewrite (Block_leave_run _ _ _ _ Hm Hbc).
  unfold mbind at 1, M_bind at 1.
  erewrite locate_run by reflexivity. simpl blocks.
  rewrite (locate_in_shape _ (blocks m)) by apply shape_alter_block.
  rewrite Hdest.
  unfold mbind at 1, M_bind at 1.
  erewrite Block_enter_run; [|reflexivity|exact Hbd].
  reflexivity.
Qed.

Lemma end_of_turn_run w m :
  map w = Some m ->
  end_of_turn w =
    (Ret tt,
     mkWorld (after_win_check m (after_dehydration (after_lose_check (player w))))
       (map w) (stdin w) (trace w ++ end_of_turn_events m (player w))).
Proof.
  intros Hm. unfold end_of_turn, Player_lose, Player_win. unfold_M.
  unfold end_of_turn_events, after_win_check, after_dehydration, after_lose_check.
  destruct w as [p mo inp tr]. simpl in *. subst mo.
  destruct (health p <=? 0); simpl;
    (destruct (hydration p <? 10); simpl);
    (destruct (win_condition m _); simpl);
    unfold with_player, with_trace; simpl;
    rewrite <- ?app_assoc; simpl; rewrite ?app_nil_r; reflexivity.
Qed.

(** A turn taken while the game is running. *)
Lemma take_turn_run dir w m :
  map w = Some m -> game_over (player w) = false ->
  take_turn dir w =
    let w0 := with_player (set_move_direction (Some dir) (player w)) w in
    match locate_in (blocks m) (Player_y (player w)) (Player_x (player w)) with
    | Raise e => (Raise e, w0)
    | Ret cur => (attempt_move dir;; end_of_turn) w0
    end.
Proof.
  intros Hm Hgo. unfold take_turn.
  unfold mbind at 1, M_bind at 1. unfold get_player at 1. rewrite Hgo.
  unfold mbind at 1, M_bind at 1. unfold modify_player at 1.
  unfold mbind at 1, M_bind at 1. unfold get_player at 1.
  unfold mbind at 1, M_bind at 1.
  erewrite locate_run by exact Hm. simpl.
  destruct (locate_in _ _ _) as [cur|e] eqn:Hcur; [|reflexivity].
  destruct (locate_in_Some _ _ _ _ Hcur) as [bc Hbc].
  unfold mbind at 1, M_bind at 1.
  erewrite Block_can_leave_run; [|exact Hm|exact Hbc]. reflexivity.
Qed.

(** ** Frame facts of the end-of-turn checks *)

Lemma after_checks_frame m p :
  let p' := after_win_check m (after_dehydration (after_lose_check p)) in
  Player_x p' = Player_x p ∧ Player_y p' = Player_y p ∧
  inventory p' = inventory p ∧ hydration p' = hydration p ∧
  chosen_level p' = chosen_level p.
Proof.
  unfold after_win_check, after_dehydration, after_lose_check.
  repeat case_match; simpl; auto.
Qed.

Lemma end_of_turn_events_quiet m p :
  Forall (fun e => is_move_event e = false) (end_of_turn_events m p).
Proof.
  unfold end_of_turn_events.
  repeat case_match; simpl; repeat constructor.
Qed.

Lemma can_enter_move_direction t d p :
  TileType_can_enter t (set_move_direction d p) = TileType_can_enter t p.
Proof. by destruct t. Qed.

Lemma take_turn_stays dir w m :
  map w = Some m -> game_over (player w) = false ->
  (may_move (new_x dir (player w)) (new_y dir (player w))
     (with_player (set_move_direction (Some dir) (player w)) w)).1 ≠ Ret true ->
  stays_put w (take_turn dir w).2.
Proof.
  intros Hm Hgo Hno. rewrite (take_turn_run _ _ _ Hm Hgo). cbv zeta.
  set (w0 := with_player _ w) in *.
  assert (Hquiet : stays_put w w0).
  { unfold stays_put, w0. simpl. repeat split; auto.
    exists []. by rewrite app_nil_r. }
  destruct (locate_in _ _ _) as [cur|e]; [|exact Hquiet].
  unfold mbind, M_bind. rewrite attempt_move_unfold.
  change (new_x dir (player w0)) with (new_x dir (player w)).
  change (new_y dir (player w0)) with (new_y dir (player w)).
  destruct (may_move _ _ w0).1 as [[|]|e]; [done| |exact Hquiet].
  rewrite (end_of_turn_run w0 m) by done. simpl.
  destruct (after_checks_frame m (set_move_direction (Some dir) (player w)))
    as (Hx & Hy & Hi & Hh & _).
  unfold stays_put. simpl. rewrite Hx, Hy, Hi, Hh. simpl.
  repeat split; auto. eexists. split; [reflexivity|].
  apply end_of_turn_events_quiet.
Qed.

Lemma rectangular_lookup bl r c b :
  rectangular bl -> block_at bl (r, c) = Some b ->
  Z.of_nat r < grid_height bl ∧ Z.of_nat c < grid_width bl.
Proof.
  unfold rectangular, block_at, grid_height. simpl. intros Hrect Hb.
  destruct (bl !! r) as [row|] eqn:Hr; simpl in Hb; [|done].
  pose proof (lookup_lt_Some _ _ _ Hr). pose proof (lookup_lt_Some _ _ _ Hb).
  rewrite Forall_lookup in Hrect. specialize (Hrect _ _ Hr). lia.
Qed.

(** C1: a turn whose candidate destination is off the grid ([new_x] is -1 or
    the grid width, or [new_y] is -1 or the grid height) leaves the player's
    position, inventory, hydration and the whole map as they were and logs no
    call of [Block.enter] or [Block.leave].  This holds for every rectangular
    grid, also where lines 293-294 compare [new_x] with the number of rows
    and [new_y] with the length of a row: there the subscript
    [blocks[new_y][new_x]] raises [IndexError] before any callback runs. *)
Theorem off_grid_move_changes_nothing dir w m :
  map w = Some m ->
  game_over (player w) = false ->
  rectangular (blocks m) ->
  new_x dir (player w) = -1 ∨ new_x dir (player w) = grid_width (blocks m) ∨
  new_y dir (player w) = -1 ∨ new_y dir (player w) = grid_height (blocks m) ->
  stays_put w (take_turn dir w).2.
Proof.
  intros Hm Hgo Hrect Hout. apply (take_turn_stays dir w m Hm Hgo).
  intros Htrue.
  apply (may_move_true _ _ _ m) in Htrue as (Hx & Hy & _ & d & Hd & _); [|done].
  apply (rectangular_lookup _ _ _ _ Hrect) in Hd as [Hr Hc]. lia.
Qed.

(** C8: when the destination block exists and its tile refuses entry ([Rock]
    always, [Water] without flippers), the turn leaves the player's position
    and the whole map as they were and logs no call of [Block.leave] (nor of
    [Block.enter]); so the origin block keeps its tile. *)
Theorem blocked_move_changes_nothing dir w m d :
  map w = Some m ->
  game_over (player w) = false ->
  0 <= new_x dir (player w) ->
  0 <= new_y dir (player w) ->
  block_at (blocks m)
    (Z.to_nat (new_y dir (player w)), Z.to_nat (new_x dir (player w))) = Some d ->
  TileType_can_enter (Block_tiletype d) (player w) = false ->
  stays_put w (take_turn dir w).2.
Proof.
  intros Hm Hgo Hx Hy Hd Hcan. apply (take_turn_stays dir w m Hm Hgo).
  intros Htrue.
  apply (may_move_true _ _ _ m) in Htrue as (_ & _ & _ & d' & Hd' & Hcan'); [|done].
  simpl in Hcan'. rewrite can_enter_move_direction in Hcan'. congruence.
Qed.

(** ** The claims on concrete worlds *)

Ltac by_compute := vm_compute; reflexivity.
Ltac split_all := repeat match goal with |- _ ∧ _ => split end.
Ltac Forall_by_compute := vm_compute; repeat constructor.

Lemma off_grid_move_witness :
  (map demo_world = Some demo_map ∧
   game_over (player demo_world) = false ∧
   rectangular (blocks demo_map) ∧
   new_y "up" (player demo_world) = -1) ∧
  stays_put demo_world (take_turn "up" demo_world).2.
Proof.
  assert (H1 : map demo_world = Some demo_map) by by_compute.
  assert (H2 : game_over (player demo_world) = false) by by_compute.
  assert (H3 : rectangular (blocks demo_map)) by (unfold rectangular; Forall_by_compute).
  assert (H4 : new_y "up" (player demo_world) = -1) by by_compute.
  split; [auto|].
  apply (off_grid_move_changes_nothing "up" demo_world demo_map H1 H2 H3).
  right; right; left; exact H4.
Defined.

Lemma blocked_move_witness :
  (map corridor_world = Some corridor_map ∧
   game_over (player corridor_world) = false ∧
   new_x "up" (player corridor_world) = 0 ∧
   new_y "up" (player corridor_world) = 0 ∧
   block_at (blocks corridor_map) (0%nat, 0%nat) = Some (mkBlock Rock None false 0 0)) ∧
  stays_put corridor_world (take_turn "up" corridor_world).2.
Proof.
  assert (H1 : map corridor_world = Some corridor_map) by by_compute.
  assert (H2 : game_over (player corridor_world) = false) by by_compute.
  assert (H3 : new_x "up" (player corridor_world) = 0) by by_compute.
  assert (H4 : new_y "up" (player corridor_world) = 0) by by_compute.
  assert (H5 : block_at (blocks corridor_map) (0%nat, 0%nat)
               = Some (mkBlock Rock None false 0 0)) by by_compute.
  split; [auto|].
  apply (blocked_move_changes_nothing "up" corridor_world corridor_map
           (mkBlock Rock None false 0 0) H1 H2).
  - rewrite H3. done.
  - rewrite H4. done.
  - rewrite H3, H4. exact H5.
  - reflexivity.
Defined.

(** On a grid that is not square the test of lines 293-294 compares [new_x]
    with the number of rows and [new_y] with the length of a row.  Stepping
    off the right edge of a grid two columns wide and three rows high passes
    that test, and the subscript [blocks[0][2]] raises [IndexError]: the turn
    ends there, with nothing moved and nothing called. *)
Example tall_grid_right_edge_raises :
  take_turn "right" (world_of tall_template) =
    (Raise IndexError, turn_start "right" (world_of tall_template)) ∧
  trace (take_turn "right" (world_of tall_template)).2 = [].
Proof. split_all; by_compute. Qed.

(** On a grid three columns wide and two rows high the same test refuses
    the step from (1, 0) to (2, 0), a Grass block of the grid. *)
Example wide_grid_inner_step_is_refused :
  tile_of (world_of wide_template) (0%nat, 2%nat) = Some Grass ∧
  (take_turn "right" (world_of wide_template)).1 = Ret tt ∧
  Player_x (player (take_turn "right" (world_of wide_template)).2) = 1 ∧
  trace (take_turn "right" (world_of wide_template)).2 = [].
Proof. split_all; by_compute. Qed.

(** ** The three ways a running turn can go *)

Lemma take_turn_cases dir w m :
  map w = Some m -> game_over (player w) = false ->
  take_turn dir w = (Raise IndexError, turn_start dir w) ∨
  take_turn dir w = end_of_turn (turn_start dir w) ∨
  ∃ cur bc bd, is_move dir w m cur bc bd ∧
    take_turn dir w =
      end_of_turn
        (moved_world (turn_start dir w) m cur
           (Z.to_nat (new_y dir (player w)), Z.to_nat (new_x dir (player w)))
           bc bd (new_x dir (player w)) (new_y dir (player w))).
Proof.
  intros Hm Hgo. rewrite (take_turn_run _ _ _ Hm Hgo). cbv zeta.
  fold (turn_start dir w). set (w0 := turn_start dir w).
  assert (Hm0 : map w0 = Some m) by done.
  destruct (locate_in _ _ _) as [cur|e] eqn:Hcur;
    [|apply locate_in_raise in Hcur as ->; auto].
  unfold mbind, M_bind. rewrite attempt_move_unfold.
  change (player w0) with (set_move_direction (Some dir) (player w)).
  change (new_x dir (set_move_direction (Some dir) (player w)))
    with (new_x dir (player w)).
  change (new_y dir (set_move_direction (Some dir) (player w)))
    with (new_y dir (player w)).
  destruct (may_move_outcome (new_x dir (player w)) (new_y dir (player w)) w0 m Hm0)
    as [Ht|[Hf| Hr]]; rewrite ?Ht, ?Hf, ?Hr; auto.
  right; right.
  apply (may_move_true _ _ _ m Hm0) in Ht as (Hx & Hy & Hdest & d & Hd & Hcan).
  destruct (locate_in_Some _ _ _ _ Hcur) as [bc Hbc].
  assert (Hbd : is_Some (block_at (alter_block left_block cur (blocks m))
            (Z.to_nat (new_y dir (player w)), Z.to_nat (new_x dir (player w))))).
  { apply (locate_in_Some _ (new_y dir (player w)) (new_x dir (player w))).
    rewrite (locate_in_shape _ (blocks m)) by apply shape_alter_block. done. }
  destruct Hbd as [bd Hbd].
  exists cur, bc, bd. split.
  - simpl in Hcan. rewrite can_enter_move_direction in Hcan.
    unfold is_move. repeat split; try lia; try done. eauto.
  - erewrite do_move_run; [reflexivity|done|exact Hcur|exact Hbc|exact Hdest|exact Hbd].
Qed.

Lemma end_of_turn_frame w m :
  map w = Some m ->
  Player_x (player (end_of_turn w).2) = Player_x (player w) ∧
  Player_y (player (end_of_turn w).2) = Player_y (player w) ∧
  inventory (player (end_of_turn w).2) = inventory (player w) ∧
  hydration (player (end_of_turn w).2) = hydration (player w) ∧
  map (end_of_turn w).2 = map w.
Proof.
  intros Hm. rewrite (end_of_turn_run _ m) by done. simpl.
  destruct (after_checks_frame m (player w)) as (-> & -> & -> & -> & _). done.
Qed.

Lemma stays_put_start dir w : stays_put w (turn_start dir w).
Proof.
  unfold stays_put, turn_start. simpl. repeat split; auto.
  exists []. by rewrite app_nil_r.
Qed.

Lemma stays_put_end_of_turn dir w m :
  map w = Some m -> stays_put w (end_of_turn (turn_start dir w)).2.
Proof.
  intros Hm. rewrite (end_of_turn_run _ m) by done. simpl.
  destruct (after_checks_frame m (set_move_direction (Some dir) (player w)))
    as (Hx & Hy & Hi & Hh & _).
  unfold stays_put. simpl. rewrite Hx, Hy, Hi, Hh. simpl.
  repeat split; auto. eexists. split; [reflexivity|].
  apply end_of_turn_events_quiet.
Qed.

(** ** Blocks over later turns *)

Lemma alter_block_preserves (P : Block -> Prop) f ref' bl ref b :
  (∀ b, P b -> P (f b)) ->
  block_at bl ref = Some b -> P b ->
  ∃ b', block_at (alter_block f ref' bl) ref = Some b' ∧ P b'.
Proof.
  intros Hf Hb HP. destruct (decide (ref' = ref)) as [->|Hne].
  - exists (f b). split; [by apply block_at_alter_eq|auto].
  - exists b. by rewrite block_at_alter_ne.
Qed.

(** A property of a block that [leave] and [enter] keep is kept by a turn. *)
Lemma take_turn_preserves_block (P : Block -> Prop) dir w m ref b :
  (∀ b, P b -> P (left_block b)) ->
  (∀ b, P b -> P (entered_block b)) ->
  map w = Some m -> game_over (player w) = false ->
  block_at (blocks m) ref = Some b -> P b ->
  ∃ m' b', map (take_turn dir w).2 = Some m' ∧
           block_at (blocks m') ref = Some b' ∧ P b'.
Proof.
  intros Hleft Hent Hm Hgo Hb HP.
  destruct (take_turn_cases dir w m Hm Hgo)
    as [E|[E|(cur & bc & bd & _ & E)]]; rewrite E.
  - exists m, b. done.
  - destruct (end_of_turn_frame (turn_start dir w) m) as (_ & _ & _ & _ & ->); [done|].
    exists m, b. done.
  - edestruct (end_of_turn_frame) as (_ & _ & _ & _ & ->); [reflexivity|]. simpl.
    destruct (alter_block_preserves P left_block cur (blocks m) ref b)
      as (b1 & Hb1 & HP1); [done..|].
    destruct (alter_block_preserves P entered_block
                (Z.to_nat (new_y dir (player w)), Z.to_nat (new_x dir (player w)))
                _ ref b1 Hent Hb1 HP1) as (b2 & Hb2 & HP2).
    eexists _, b2. split; [reflexivity|]. done.
Qed.

Lemma plays_on_preserves_block (P : Block -> Prop) w w' m ref b :
  (∀ b, P b -> P (left_block b)) ->
  (∀ b, P b -> P (entered_block b)) ->
  plays_on w w' ->
  map w = Some m -> block_at (blocks m) ref = Some b -> P b ->
  ∃ m' b', map w' = Some m' ∧ block_at (blocks m') ref = Some b' ∧ P b'.
Proof.
  intros Hleft Hent Hplay Hm Hb HP. induction Hplay as [|w' dir _ IH Hgo].
  - eauto.
  - destruct IH as (m' & b' & Hm' & Hb' & HP').
    by eapply take_turn_preserves_block.
Qed.

Lemma left_block_keeps_item b : Block_item (left_block b) = Block_item b.
Proof. unfold left_block. by destruct (Block_tiletype b). Qed.

Lemma entered_block_keeps_tile b : Block_tiletype (entered_block b) = Block_tiletype b.
Proof. unfold entered_block. by destruct (Block_item b) as [[|]|]. Qed.

Lemma entered_block_item_gone b :
  Block_item b = None -> Block_item (entered_block b) = None.
Proof. unfold entered_block. intros H. by rewrite H. Qed.

Lemma left_block_water b :
  Block_tiletype b = Water -> Block_tiletype (left_block b) = Water.
Proof. unfold left_block. intros H. by rewrite H. Qed.

(** C6: [Water.can_enter] holds exactly when the inventory contains
    "flippers", both for the tile and for a block whose tile is Water; and
    entering Water, through the tile's [enter] or through [Block.enter],
    leaves hydration at 100 whatever it was. *)
Theorem water_needs_flippers_and_hydrates w m ref b :
  map w = Some m ->
  block_at (blocks m) ref = Some b ->
  Block_tiletype b = Water ->
  (TileType_can_enter Water (player w) = true ↔
     "flippers"%string ∈ inventory (player w)) ∧
  Block_can_enter ref w =
    (Ret (bool_decide ("flippers"%string ∈ inventory (player w))), w) ∧
  hydration (player (TileType_enter Water ref w).2) = 100 ∧
  hydration (player (Block_enter ref w).2) = 100.
Proof.
  intros Hm Hb Ht. repeat split.
  - simpl. unfold Player_has. apply bool_decide_eq_true_1.
  - simpl. unfold Player_has. apply bool_decide_eq_true_2.
  - rewrite (Block_can_enter_run _ _ _ _ Hm Hb), Ht. reflexivity.
  - rewrite (Block_enter_run _ _ _ _ Hm Hb). simpl.
    unfold entered_player. rewrite Ht. simpl.
    by destruct (Block_item b) as [[|]|].
Qed.

Lemma water_witness :
  (map thirsty_world = Some demo_map ∧
   block_at (blocks demo_map) (0%nat, 0%nat) = Some (mkBlock Water None false 0 0) ∧
   hydration (player thirsty_world) = 3) ∧
  Block_can_enter (0%nat, 0%nat) thirsty_world = (Ret true, thirsty_world) ∧
  hydration (player (Block_enter (0%nat, 0%nat) thirsty_world).2) = 100.
Proof.
  assert (H1 : map thirsty_world = Some demo_map) by reflexivity.
  assert (H2 : block_at (blocks demo_map) (0%nat, 0%nat)
               = Some (mkBlock Water None false 0 0)) by by_compute.
  split; [auto|].
  destruct (water_needs_flippers_and_hydrates thirsty_world demo_map (0%nat, 0%nat)
              (mkBlock Water None false 0 0) H1 H2 eq_refl) as (_ & Hc & _ & Hh).
  split; [exact Hc|exact Hh].
Defined.

Lemma tile_enter_player_inventory t p :
  inventory (tile_enter_player t p) = inventory p.
Proof. by destruct t. Qed.

Lemma Block_enter_item_of w m ref b :
  map w = Some m -> block_at (blocks m) ref = Some b ->
  item_of (Block_enter ref w).2 ref = Some (Block_item (entered_block b)) ∧
  tile_of (Block_enter ref w).2 ref = Some (Block_tiletype b).
Proof.
  intros Hm Hb. rewrite (Block_enter_run _ _ _ _ Hm Hb).
  unfold item_of, tile_of. simpl.
  rewrite (block_at_alter_eq _ _ _ _ Hb).
  change (Some (Block_item (entered_block b)) = Some (Block_item (entered_block b)) ∧
          Some (Block_tiletype (entered_block b)) = Some (Block_tiletype b)).
  by rewrite entered_block_keeps_tile.
Qed.

Lemma Block_leave_tile_of w m ref b :
  map w = Some m -> block_at (blocks m) ref = Some b ->
  tile_of (Block_leave ref w).2 ref = Some (Block_tiletype (left_block b)) ∧
  player (Block_leave ref w).2 = player w.
Proof.
  intros Hm Hb. rewrite (Block_leave_run _ _ _ _ Hm Hb).
  unfold tile_of. simpl. by rewrite (block_at_alter_eq _ _ _ _ Hb).
Qed.

(** C7: [Block.enter] on a block holding a [Key] appends exactly one "key"
    to the inventory and leaves the block without an item; the block stays
    without an item over any later turns of the level, and entering it again
    then leaves the inventory as it is. *)
Theorem key_is_claimed_once w m ref b :
  map w = Some m ->
  block_at (blocks m) ref = Some b ->
  Block_item b = Some Key ->
  inventory (player (Block_enter ref w).2) = inventory (player w) ++ ["key"%string] ∧
  item_of (Block_enter ref w).2 ref = Some None ∧
  ∀ w2, plays_on (Block_enter ref w).2 w2 ->
        item_of w2 ref = Some None ∧
        inventory (player (Block_enter ref w2).2) = inventory (player w2).
Proof.
  intros Hm Hb Hkey.
  destruct (Block_enter_item_of w m ref b Hm Hb) as [Hitem _].
  assert (Hgone : Block_item (entered_block b) = None)
    by (unfold entered_block; by rewrite Hkey).
  rewrite Hgone in Hitem.
  split; [|split; [exact Hitem|]].
  - rewrite (Block_enter_run _ _ _ _ Hm Hb). simpl.
    unfold entered_player, item_enter_player. rewrite Hkey. simpl.
    by rewrite tile_enter_player_inventory.
  - intros w2 Hplay.
    unfold item_of in Hitem.
    destruct (map (Block_enter ref w).2) as [m1|] eqn:Hm1; [|done]. simpl in Hitem.
    destruct (block_at (blocks m1) ref) as [b1|] eqn:Hb1; [|done].
    injection Hitem as Hb1none.
    destruct (plays_on_preserves_block (fun b => Block_item b = None)
                (Block_enter ref w).2 w2 m1 ref b1)
      as (m2 & b2 & Hm2 & Hb2 & Hnone); try done.
    { intros b' ?. by rewrite left_block_keeps_item. }
    { apply entered_block_item_gone. }
    split.
    + unfold item_of. rewrite Hm2. simpl. rewrite Hb2. simpl. by rewrite Hnone.
    + rewrite (Block_enter_run _ _ _ _ Hm2 Hb2). simpl.
      unfold entered_player, item_enter_player. rewrite Hnone.
      by rewrite tile_enter_player_inventory.
Qed.

Lemma key_witness :
  (map demo_world = Some demo_map ∧
   block_at (blocks demo_map) (2%nat, 0%nat) = Some (mkBlock Ice (Some Key) false 0 2)) ∧
  inventory (player (Block_enter (2%nat, 0%nat) demo_world).2) = ["key"%string] ∧
  item_of (Block_enter (2%nat, 0%nat) demo_world).2 (2%nat, 0%nat) = Some None.
Proof.
  assert (H1 : map demo_world = Some demo_map) by by_compute.
  assert (H2 : block_at (blocks demo_map) (2%nat, 0%nat)
               = Some (mkBlock Ice (Some Key) false 0 2)) by by_compute.
  split; [auto|].
  destruct (key_is_claimed_once demo_world demo_map (2%nat, 0%nat)
              (mkBlock Ice (Some Key) false 0 2) H1 H2 eq_refl) as (Hi & Hg & _).
  split; [exact Hi|exact Hg].
Defined.

(** C5, as stated, fails: an Ice block can hold a Key, and entering it then
    changes the player.  In the fresh "demo" level the block at (0, 2) is Ice
    with a Key; [Block.enter] on it puts "key" into the inventory, and so
    does the turn that steps onto it after the keys "s", "a", "s". *)
Lemma ice_block_with_key_counterexample :
  map demo_world = Some demo_map ∧
  block_at (blocks demo_map) (2%nat, 0%nat) = Some (mkBlock Ice (Some Key) false 0 2) ∧
  inventory (player demo_world) = [] ∧
  inventory (player (Block_enter (2%nat, 0%nat) demo_world).2) = ["key"%string] ∧
  player (Block_enter (2%nat, 0%nat) demo_world).2 ≠ player demo_world ∧
  (let w3 := run_keys ["s"; "a"; "s"]%string demo_world in
   game_over (player w3) = false ∧
   (Player_x (player w3), Player_y (player w3)) = (1, 2) ∧
   tile_at w3 0 2 = Some Ice ∧
   inventory (player w3) = [] ∧
   (Player_x (player (take_turn "left" w3).2),
    Player_y (player (take_turn "left" w3).2)) = (0, 2) ∧
   inventory (player (take_turn "left" w3).2) = ["key"%string]).
Proof.
  cbv zeta. split_all; try by_compute.
  intros H. apply (f_equal inventory) in H. vm_compute in H. discriminate.
Qed.

(** C5, amended: for a block whose tile is Ice, the tile's [enter] does
    nothing and [Block.enter] changes the player only through the block's
    item: a Key there is appended to the inventory, and without a Key the
    player is left as it is.  [Block.enter] keeps the tile Ice; [Block.leave]
    keeps the player as it is and replaces the tile by Water.  From then on
    the tile stays Water: over any later turns, and when the block is left or
    entered again. *)
Theorem ice_turns_to_water_on_leave w m ref b :
  map w = Some m ->
  block_at (blocks m) ref = Some b ->
  Block_tiletype b = Ice ->
  TileType_enter Ice ref w = (Ret tt, w) ∧
  player (Block_enter ref w).2 = item_enter_player (Block_item b) (player w) ∧
  (Block_item b ≠ Some Key -> player (Block_enter ref w).2 = player w) ∧
  (Block_item b = Some Key ->
   player (Block_enter ref w).2 =
     set_inventory (inventory (player w) ++ ["key"%string]) (player w)) ∧
  tile_of (Block_enter ref w).2 ref = Some Ice ∧
  player (Block_leave ref w).2 = player w ∧
  tile_of (Block_leave ref w).2 ref = Some Water ∧
  ∀ w2, plays_on (Block_leave ref w).2 w2 ->
        tile_of w2 ref = Some Water ∧
        tile_of (Block_leave ref w2).2 ref = Some Water ∧
        tile_of (Block_enter ref w2).2 ref = Some Water.
Proof.
  intros Hm Hb Hice.
  destruct (Block_enter_item_of w m ref b Hm Hb) as [_ Htile].
  destruct (Block_leave_tile_of w m ref b Hm Hb) as [Hleft Hpl].
  assert (Hw : Block_tiletype (left_block b) = Water)
    by (unfold left_block; by rewrite Hice).
  rewrite Hw in Hleft. rewrite Hice in Htile.
  assert (Hent : player (Block_enter ref w).2
                 = item_enter_player (Block_item b) (player w)).
  { rewrite (Block_enter_run _ _ _ _ Hm Hb). simpl.
    unfold entered_player. by rewrite Hice. }
  split; [done|]. split; [exact Hent|].
  split; [|split; [|split; [exact Htile|split; [exact Hpl|split; [exact Hleft|]]]]].
  - intros Hnokey. rewrite Hent. unfold item_enter_player.
    by destruct (Block_item b) as [[|]|].
  - intros Hkey. rewrite Hent, Hkey. reflexivity.
  - intros w2 Hplay. unfold tile_of in Hleft.
    destruct (map (Block_leave ref w).2) as [m1|] eqn:Hm1; [|done]. simpl in Hleft.
    destruct (block_at (blocks m1) ref) as [b1|] eqn:Hb1; [|done].
    injection Hleft as Hb1w.
    destruct (plays_on_preserves_block (fun b => Block_tiletype b = Water)
                (Block_leave ref w).2 w2 m1 ref b1)
      as (m2 & b2 & Hm2 & Hb2 & Hwater); try done.
    { apply left_block_water. }
    { intros b' ?. by rewrite entered_block_keeps_tile. }
    destruct (Block_enter_item_of w2 m2 ref b2 Hm2 Hb2) as [_ He].
    destruct (Block_leave_tile_of w2 m2 ref b2 Hm2 Hb2) as [Hl _].
    rewrite (left_block_water _ Hwater) in Hl. rewrite Hwater in He.
    repeat split; try done.
    unfold tile_of. rewrite Hm2. simpl. rewrite Hb2. simpl. by rewrite Hwater.
Qed.

Lemma ice_witness :
  (map demo_world = Some demo_map ∧
   block_at (blocks demo_map) (0%nat, 2%nat) = Some (mkBlock Ice None true 2 0)) ∧
  player (Block_enter (0%nat, 2%nat) demo_world).2 = player demo_world ∧
  tile_of (Block_enter (0%nat, 2%nat) demo_world).2 (0%nat, 2%nat) = Some Ice ∧
  tile_of (Block_leave (0%nat, 2%nat) demo_world).2 (0%nat, 2%nat) = Some Water.
Proof.
  assert (H1 : map demo_world = Some demo_map) by by_compute.
  assert (H2 : block_at (blocks demo_map) (0%nat, 2%nat)
               = Some (mkBlock Ice None true 2 0)) by by_compute.
  split; [auto|].
  destruct (ice_turns_to_water_on_leave demo_world demo_map (0%nat, 2%nat)
              (mkBlock Ice None true 2 0) H1 H2 eq_refl)
    as (_ & _ & Hp & _ & Ht & _ & Hl & _).
  split; [exact (Hp ltac:(discriminate))|]. split; [exact Ht|exact Hl].
Defined.

(** ** End-of-turn checks *)

(** C3, as stated, fails: with health 0 and hydration 5 the turn calls
    [lose] and then still applies the dehydration penalty (health -2), where
    the claimed order leaves health at 0. *)
Lemma dehydration_after_loss_counterexample :
  game_over (player parched_world) = false ∧
  health (player (take_turn "up" parched_world).2) = -2 ∧
  trace (take_turn "up" parched_world).2 = [CallLose; Dehydrated] ∧
  game_over (player (take_turn "up" parched_world).2) = true ∧
  health (player (end_of_turn_as_claimed (turn_start "up" parched_world)).2) = 0 ∧
  trace (end_of_turn_as_claimed (turn_start "up" parched_world)).2 = [CallLose].
Proof. split_all; by_compute. Qed.

Lemma elem_of_end_of_turn_events m p :
  (CallLose ∈ end_of_turn_events m p ↔ health p <= 0) ∧
  (Dehydrated ∈ end_of_turn_events m p ↔ hydration p < 10) ∧
  (CallWin ∈ end_of_turn_events m p ↔
     win_condition m (after_dehydration (after_lose_check p)) = true).
Proof.
  unfold end_of_turn_events.
  destruct (health p <=? 0) eqn:E1; destruct (hydration p <? 10) eqn:E2;
    destruct (win_condition m _) eqn:E3; zbool; simpl;
    rewrite ?elem_of_cons, ?elem_of_nil; intuition (try discriminate; try lia).
Qed.

(** C3, amended: a running turn that does not raise ends with the three
    checks of lines 300-306, which are independent and run in this order:
    [lose] is called exactly when health <= 0; then, whether or not the loss
    fired, health drops by 2 exactly when hydration < 10; then the win
    predicate is evaluated on the resulting player and [win] is called on
    that same turn when it holds.  This agrees with the order worded in C3
    except when health <= 0 and hydration < 10 at the same time. *)
Theorem end_of_turn_checks_are_independent dir w m :
  map w = Some m ->
  game_over (player w) = false ->
  ((take_turn dir w).1 = Ret tt ->
     ∃ w1 m1, map w1 = Some m1 ∧ take_turn dir w = end_of_turn w1 ∧
       (w1 = turn_start dir w ∨
        ∃ cur bc bd, is_move dir w m cur bc bd ∧
          w1 = moved_world (turn_start dir w) m cur
                 (Z.to_nat (new_y dir (player w)), Z.to_nat (new_x dir (player w)))
                 bc bd (new_x dir (player w)) (new_y dir (player w)))) ∧
  ∀ w1 m1, map w1 = Some m1 ->
    end_of_turn w1 =
      (Ret tt,
       mkWorld (after_win_check m1 (after_dehydration (after_lose_check (player w1))))
         (map w1) (stdin w1) (trace w1 ++ end_of_turn_events m1 (player w1))) ∧
    health (player (end_of_turn w1).2) =
      (if hydration (player w1) <? 10 then health (player w1) - 2
       else health (player w1)) ∧
    game_over (player (end_of_turn w1).2) =
      (health (player w1) <=? 0) ||
      win_condition m1 (after_dehydration (after_lose_check (player w1))) ||
      game_over (player w1) ∧
    (CallLose ∈ end_of_turn_events m1 (player w1) ↔ health (player w1) <= 0) ∧
    (Dehydrated ∈ end_of_turn_events m1 (player w1) ↔ hydration (player w1) < 10) ∧
    (CallWin ∈ end_of_turn_events m1 (player w1) ↔
       win_condition m1 (after_dehydration (after_lose_check (player w1))) = true) ∧
    (¬ (health (player w1) <= 0 ∧ hydration (player w1) < 10) ->
       end_of_turn w1 = end_of_turn_as_claimed w1).
Proof.
  intros Hm Hgo. split.
  - intros Hret.
    destruct (take_turn_cases dir w m Hm Hgo)
      as [E|[E|(cur & bc & bd & Hmove & E)]].
    + by rewrite E in Hret.
    + exists (turn_start dir w), m. auto.
    + eexists _, _. split; [|split; [exact E|]]; [reflexivity|].
      right. by exists cur, bc, bd.
  - intros w1 m1 Hm1.
    destruct (elem_of_end_of_turn_events m1 (player w1)) as (HL & HD & HW).
    split; [by apply end_of_turn_run|].
    rewrite (end_of_turn_run w1 m1 Hm1). simpl.
    split; [|split; [|split; [exact HL|split; [exact HD|split; [exact HW|]]]]];
      clear HL HD HW.
    + unfold after_win_check, after_dehydration, after_lose_check.
      destruct (health (player w1) <=? 0); simpl;
        (destruct (hydration _ <? 10); simpl);
        (destruct (win_condition m1 _); simpl); reflexivity.
    + unfold after_win_check, after_dehydration, after_lose_check.
      destruct (health (player w1) <=? 0); simpl;
        (destruct (hydration _ <? 10); simpl);
        (destruct (win_condition m1 _); simpl);
        rewrite ?orb_true_r; reflexivity.
    + intros Hnot. unfold end_of_turn_as_claimed, Player_lose, Player_win. unfold_M.
      unfold end_of_turn_events, after_win_check, after_dehydration, after_lose_check.
      destruct w1 as [p mo inp tr]. simpl in *. subst mo.
      destruct (health p <=? 0) eqn:E1; simpl;
        (destruct (hydration p <? 10) eqn:E2; simpl);
        try (exfalso; zbool; apply Hnot; lia);
        (destruct (win_condition m1 _); simpl);
        unfold with_player, with_trace; simpl;
        rewrite <- ?app_assoc; simpl; rewrite ?app_nil_r; reflexivity.
Qed.

Lemma end_of_turn_checks_witness :
  (map parched_world = Some demo_map ∧ game_over (player parched_world) = false) ∧
  health (player (end_of_turn parched_world).2) = -2 ∧
  (Dehydrated ∈ end_of_turn_events demo_map (player parched_world) ↔
     hydration (player parched_world) < 10).
Proof.
  split; [split; reflexivity|].
  destruct (end_of_turn_checks_are_independent "up" parched_world demo_map
              eq_refl eq_refl) as [_ H].
  destruct (H parched_world demo_map eq_refl) as (_ & Hh & _ & _ & Hd & _).
  split; [exact Hh|exact Hd].
Defined.

(** ** The map builder *)

Lemma mapM_result_unfold {A B} (f : A -> result B) a l :
  mapM f (a :: l) =
    match f a with
    | Ret b => match mapM f l with Ret k => Ret (b :: k) | Raise e => Raise e end
    | Raise e => Raise e
    end.
Proof. reflexivity. Qed.

Lemma mapM_result_cons {A B} (f : A -> result B) a l l' :
  mapM f (a :: l) = Ret l' ->
  ∃ b k, f a = Ret b ∧ mapM f l = Ret k ∧ l' = b :: k.
Proof.
  rewrite mapM_result_unfold.
  destruct (f a) as [b|]; [|done].
  destruct (mapM f l) as [k|]; [|done].
  intros [= <-]. eauto.
Qed.

Lemma mapM_result_length {A B} (f : A -> result B) l l' :
  mapM f l = Ret l' -> length l' = length l.
Proof.
  revert l'. induction l as [|a l IH]; intros l' H.
  - by injection H as <-.
  - apply mapM_result_cons in H as (b & k & _ & Hk & ->). simpl. f_equal. auto.
Qed.

Lemma mapM_result_lookup {A B} (f : A -> result B) l l' i b :
  mapM f l = Ret l' -> l' !! i = Some b -> ∃ a, l !! i = Some a ∧ f a = Ret b.
Proof.
  revert l' i. induction l as [|a l IH]; intros l' i H Hi.
  - injection H as <-. done.
  - apply mapM_result_cons in H as (b0 & k & Hb0 & Hk & ->).
    destruct i as [|i]; simpl in *.
    + injection Hi as <-. eauto.
    + eauto.
Qed.

Lemma mapM_result_transfer {A B} (f g : A -> result B) l l1 :
  (∀ a b, f a = Ret b -> ∃ b', g a = Ret b') ->
  mapM f l = Ret l1 -> ∃ l2, mapM g l = Ret l2.
Proof.
  intros Hfg. revert l1. induction l as [|a l IH]; intros l1 H.
  - by exists [].
  - apply mapM_result_cons in H as (b & k & Hb & Hk & ->).
    destruct (Hfg _ _ Hb) as [b' Hb']. destruct (IH _ Hk) as [k' Hk'].
    exists (b' :: k'). by rewrite mapM_result_unfold, Hb', Hk'.
Qed.

(** What [build_block] puts in a block. *)
Lemma build_block_Ret tpl p yy xx b :
  build_block tpl p yy xx = Ret b ->
  Block_x b = Z.of_nat xx ∧ Block_y b = Z.of_nat yy ∧
  Block_has_player b =
    bool_decide (Z.of_nat xx = Player_x p ∧ Z.of_nat yy = Player_y p) ∧
  ∃ tcode icode,
    (tpl_terrain tpl !! yy) ≫= (.!! xx) = Some tcode ∧
    terrain !! tcode = Some (Block_tiletype b) ∧
    (tpl_items tpl !! yy) ≫= (.!! xx) = Some icode ∧
    item !! icode = Some (Block_item b).
Proof.
  assert (Hidx : ∀ {A} (l : list A) (k : nat) a,
            py_index l (Z.of_nat k) = Ret a -> l !! k = Some a).
  { intros A l k a. unfold py_index.
    destruct (py_norm _ _) as [k'|] eqn:Hk; [|done].
    apply py_norm_nonneg in Hk as [-> _]; [|lia]. rewrite Nat2Z.id.
    destruct (l !! k); [by intros [= ->]|done]. }
  unfold build_block, dict_get. unfold mbind, result_bind, mret, result_ret.
  destruct (py_index (tpl_terrain tpl) _) as [trow|] eqn:H1; [|done].
  destruct (py_index trow _) as [tcode|] eqn:H2; [|done].
  destruct (terrain !! tcode) as [tile|] eqn:H3; [|done].
  destruct (py_index (tpl_items tpl) _) as [irow|] eqn:H4; [|done].
  destruct (py_index irow _) as [icode|] eqn:H5; [|done].
  destruct (item !! icode) as [it|] eqn:H6; [|done].
  intros [= <-]. simpl. repeat split.
  exists tcode, icode.
  rewrite (Hidx _ _ _ _ H1), (Hidx _ _ _ _ H4). simpl.
  by rewrite (Hidx _ _ _ _ H2), (Hidx _ _ _ _ H5).
Qed.

Lemma build_block_any_player tpl p p' yy xx b :
  build_block tpl p yy xx = Ret b -> ∃ b', build_block tpl p' yy xx = Ret b'.
Proof.
  unfold build_block. unfold mbind, result_bind, mret, result_ret.
  repeat case_match; try done. eauto.
Qed.

Lemma Map_build_any_player n tpl p p' m :
  Map_build n tpl p = Ret m -> ∃ m', Map_build n tpl p' = Ret m'.
Proof.
  unfold Map_build. unfold mbind, result_bind, mret, result_ret.
  destruct (py_index _ 0) as [row0|]; [|done].
  case_bool_decide; [done|].
  destruct (mapM (build_row tpl p _) _) as [bl|] eqn:Hbl; [|done]. intros _.
  assert (Hrows : ∀ yy row, build_row tpl p (length row0) yy = Ret row ->
            ∃ row', build_row tpl p' (length row0) yy = Ret row').
  { intros yy row Hrow. unfold build_row in *.
    eapply mapM_result_transfer; [|exact Hrow].
    intros xx b. apply build_block_any_player. }
  destruct (mapM_result_transfer _ _ _ _ Hrows Hbl) as [bl' Hbl'].
  unfold result_bind, result_ret in Hbl'. rewrite Hbl'. eauto.
Qed.

(** The blocks of a built map, cell by cell. *)
Lemma Map_build_lookup n tpl p m r c b :
  Map_build n tpl p = Ret m ->
  block_at (blocks m) (r, c) = Some b ->
  build_block tpl p r c = Ret b.
Proof.
  unfold Map_build. unfold mbind, result_bind, mret, result_ret.
  destruct (py_index _ 0) as [row0|]; [|done].
  case_bool_decide; [done|].
  destruct (mapM _ _) as [bl|] eqn:Hbl; [|done]. intros [= <-]. simpl.
  unfold block_at. simpl.
  destruct (bl !! r) as [row|] eqn:Hr; [|done]. simpl. intros Hc.
  destruct (mapM_result_lookup _ _ _ _ _ Hbl Hr) as (yy & Hyy & Hrow).
  apply lookup_seq in Hyy as [-> _]. unfold build_row in Hrow.
  destruct (mapM_result_lookup _ _ _ _ _ Hrow Hc) as (xx & Hxx & Hb).
  apply lookup_seq in Hxx as [-> _]. done.
Qed.

Lemma Map_build_rectangular n tpl p m :
  Map_build n tpl p = Ret m ->
  rectangular (blocks m) ∧ length (blocks m) = length (tpl_terrain tpl) ∧
  Map_name m = n ∧ win_condition m = tpl_win_condition tpl.
Proof.
  unfold Map_build. unfold mbind, result_bind, mret, result_ret.
  destruct (py_index _ 0) as [row0|]; [|done].
  case_bool_decide; [done|].
  destruct (mapM _ _) as [bl|] eqn:Hbl; [|done]. intros [= <-]. simpl.
  assert (Hrows : Forall (fun row => length row = length row0) bl).
  { apply Forall_lookup. intros r row Hr.
    destruct (mapM_result_lookup _ _ _ _ _ Hbl Hr) as (yy & _ & Hrow).
    unfold build_row in Hrow. apply mapM_result_length in Hrow.
    by rewrite length_seq in Hrow. }
  split; [|split; [|done]].
  - unfold rectangular, grid_width. destruct Hrows as [|row rest Hrow Hrest]; [constructor|].
    constructor; [done|].
    eapply Forall_impl; [exact Hrest|]. simpl. intros x Hx. lia.
  - apply mapM_result_length in Hbl. by rewrite length_seq in Hbl.
Qed.

(** Every level of the catalogue builds, wherever the player is. *)
Lemma Map_init_shipped lvl tpl p :
  maps !! lvl = Some tpl -> ∃ m, Map_init lvl p = Ret m ∧ Map_build lvl tpl p = Ret m.
Proof.
  intros Hlvl. unfold Map_init, dict_get. unfold mbind, result_bind. rewrite Hlvl.
  cut (∃ m, Map_build lvl tpl p = Ret m); [intros [m ->]; eauto|].
  cut (∃ m0, Map_build lvl tpl Player_new = Ret m0).
  { intros [m0 H0]. by eapply Map_build_any_player. }
  unfold maps in Hlvl. apply elem_of_list_to_map_2 in Hlvl.
  repeat (apply elem_of_cons in Hlvl as [[= -> ->]|Hlvl];
          [vm_compute; eauto|]).
  by apply elem_of_nil in Hlvl.
Qed.

(** ** Choosing and starting a level *)

Lemma choose_level_loop_Ret lines cur r cur' rest :
  choose_level_loop lines cur = (r, cur', rest) ->
  (r = Ret tt ∧ ∃ lvl tpl, cur' = Some lvl ∧ maps !! lvl = Some tpl) ∨
  (r = Raise EOFError ∧ rest = []).
Proof.
  revert cur. induction lines as [|l lines IH]; intros cur; simpl.
  - destruct (level_known cur) eqn:Hk; intros [= <- <- <-]; [left|right; done].
    split; [done|]. destruct cur as [lvl|]; [|done]. simpl in Hk.
    apply bool_decide_eq_true_1 in Hk as [tpl Htpl]. eauto.
  - destruct (level_known cur) eqn:Hk; [|apply IH].
    intros [= <- <- <-]. left.
    split; [done|]. destruct cur as [lvl|]; [|done]. simpl in Hk.
    apply bool_decide_eq_true_1 in Hk as [tpl Htpl]. eauto.
Qed.

Lemma start_level_run w lvl tpl :
  chosen_level (player w) = Some lvl -> maps !! lvl = Some tpl ->
  ∃ m', Map_build lvl tpl (started tpl (player w)) = Ret m' ∧
        start_level w = (Ret tt, mkWorld (started tpl (player w)) (Some m') (stdin w) (trace w)).
Proof.
  intros Hlvl Htpl.
  destruct (Map_init_shipped lvl tpl (started tpl (player w)) Htpl) as (m' & Hinit & Hbuild).
  exists m'. split; [done|].
  unfold start_level, level_template, dict_get. unfold_M. simpl.
  rewrite Hlvl, Htpl. simpl. rewrite Hlvl, Htpl. simpl. rewrite Hlvl.
  fold (started tpl (player w)). by rewrite Hinit.
Qed.

(** [choose_level] followed by [start_level], from no chosen level. *)
Lemma choose_then_start w :
  chosen_level (player w) = None ->
  (∃ lvl tpl rest m',
     choose_level_loop (stdin w) None = (Ret tt, Some lvl, rest) ∧
     maps !! lvl = Some tpl ∧
     Map_build lvl tpl (started tpl (set_chosen_level (Some lvl) (player w))) = Ret m' ∧
     (choose_level;; start_level) w =
       (Ret tt, mkWorld (started tpl (set_chosen_level (Some lvl) (player w)))
                  (Some m') rest (trace w))) ∨
  (∃ cur,
     choose_level_loop (stdin w) None = (Raise EOFError, cur, []) ∧
     (choose_level;; start_level) w =
       (Raise EOFError, with_stdin [] (with_player (set_chosen_level cur (player w)) w))).
Proof.
  intros Hnone.
  destruct (choose_level_loop (stdin w) None) as [[r cur] rest] eqn:Hloop.
  destruct (choose_level_loop_Ret _ _ _ _ _ Hloop)
    as [(-> & lvl & tpl & -> & Htpl)|(-> & ->)].
  - left.
    set (w1 := with_stdin rest (with_player (set_chosen_level (Some lvl) (player w)) w)).
    destruct (start_level_run w1 lvl tpl eq_refl Htpl) as (m' & Hbuild & Hstart).
    exists lvl, tpl, rest, m'. repeat split; [done..|].
    unfold mbind, M_bind, choose_level. rewrite Hnone, Hloop. exact Hstart.
  - right. exists cur. split; [done|].
    unfold mbind, M_bind, choose_level. by rewrite Hnone, Hloop.
Qed.

Lemma take_turn_game_over dir w :
  game_over (player w) = true -> take_turn dir w = reset_level w.
Proof. intros H. unfold take_turn. unfold_M. by rewrite H. Qed.

Lemma reset_level_unfold w :
  reset_level w =
    match (choose_level;; start_level)
            (with_player (set_chosen_level None (player w)) w) with
    | (Ret _, w1) => (Ret tt, with_player (set_game_over false (player w1)) w1)
    | (Raise e, w1) => (Raise e, w1)
    end.
Proof.
  unfold reset_level. unfold_M.
  destruct (choose_level _) as [[[]|e] w1]; [|done].
  by destruct (start_level w1) as [[[]|e] w2].
Qed.

Lemma setup_unfold w :
  setup w = (choose_level;; start_level) (with_map None (with_player Player_new w)).
Proof.
  unfold setup, global_chosen_level. unfold_M.
  destruct (choose_level _) as [[[]|e] w1]; [|done].
  by destruct (start_level w1) as [[[]|e] w2].
Qed.

Lemma take_turn_no_map dir w :
  game_over (player w) = false -> map w = None ->
  take_turn dir w = (Raise AttributeError, turn_start dir w).
Proof.
  intros Hgo Hm. unfold take_turn. unfold_M. rewrite Hgo. simpl. by rewrite Hm.
Qed.

(** ** Hydration *)

Lemma entered_player_hydration b p :
  hydration (entered_player b p) = hydration p ∨
  hydration (entered_player b p) = 100.
Proof.
  unfold entered_player, item_enter_player, tile_enter_player.
  destruct (Block_item b) as [[|]|], (Block_tiletype b); simpl; auto.
Qed.

Section HydrationAndLog.
(** Any relation between the hydration and the log that survives a write
    of 100, a logged call, and a logged dehydration penalty taken while
    hydration is below 10, survives every key press. *)
Variable R : Z -> list Event -> Prop.
Hypothesis R_full : ∀ h t, R h t -> R 100 t.
Hypothesis R_emit : ∀ h t e, R h t -> e ≠ Dehydrated -> R h (t ++ [e]).
Hypothesis R_penalty : ∀ h t, R h t -> h < 10 -> R h (t ++ [Dehydrated]).

Lemma R_events h t evs :
  Forall (fun e => e ≠ Dehydrated ∨ h < 10) evs -> R h t -> R h (t ++ evs).
Proof.
  intros Hevs. revert t. induction Hevs as [|e evs He _ IH]; intros t Ht.
  - by rewrite app_nil_r.
  - replace (t ++ e :: evs) with ((t ++ [e]) ++ evs)
      by (by rewrite <- app_assoc).
    apply IH.
    destruct (decide (e = Dehydrated)) as [->|Hne].
    + apply R_penalty; [done|]. by destruct He.
    + by apply R_emit.
Qed.

Lemma end_of_turn_holds w m :
  map w = Some m -> log_holds R w -> log_holds R (end_of_turn w).2.
Proof.
  intros Hm Hw. unfold log_holds. rewrite (end_of_turn_run w m Hm). simpl.
  destruct (after_checks_frame m (player w)) as (_ & _ & _ & -> & _).
  apply R_events; [|exact Hw].
  unfold end_of_turn_events.
  destruct (health (player w) <=? 0); destruct (hydration (player w) <? 10) eqn:E;
    destruct (win_condition m _); simpl;
    repeat (apply List.Forall_cons); try apply List.Forall_nil;
    try (left; discriminate); right; zbool; lia.
Qed.

Lemma choose_then_start_holds w :
  chosen_level (player w) = None -> log_holds R w ->
  log_holds R ((choose_level;; start_level) w).2 ∧
  hydration (player ((choose_level;; start_level) w).2) = hydration (player w).
Proof.
  intros Hnone Hw.
  destruct (choose_then_start w Hnone)
    as [(lvl & tpl & rest & m' & _ & _ & _ & ->)|(cur & _ & ->)]; done.
Qed.

Lemma take_turn_holds dir w : log_holds R w -> log_holds R (take_turn dir w).2.
Proof.
  intros Hw. destruct (game_over (player w)) eqn:Hgo.
  - rewrite (take_turn_game_over _ _ Hgo), reset_level_unfold.
    pose proof (choose_then_start_holds
                  (with_player (set_chosen_level None (player w)) w) eq_refl Hw) as [H _].
    destruct ((choose_level;; start_level) _) as [[[]|e] w1]; done.
  - destruct (map w) as [m|] eqn:Hm; [|by rewrite take_turn_no_map].
    destruct (take_turn_cases dir w m Hm Hgo)
      as [E|[E|(cur & bc & bd & _ & E)]]; rewrite E.
    + done.
    + by apply (end_of_turn_holds _ m).
    + eapply end_of_turn_holds; [reflexivity|]. unfold log_holds. simpl.
      apply R_emit; [|done]. apply R_emit; [|done].
      destruct (entered_player_hydration bd (set_move_direction (Some dir) (player w)))
        as [->| ->]; [exact Hw|]. by eapply R_full.
Qed.

Lemma setup_holds w : log_holds R w -> log_holds R (setup w).2.
Proof.
  intros Hw. rewrite setup_unfold.
  apply choose_then_start_holds; [done|]. unfold log_holds. simpl. by eapply R_full.
Qed.

Lemma keyPressed_holds key w : log_holds R w -> log_holds R (keyPressed key w).2.
Proof.
  intros Hw. unfold keyPressed.
  repeat case_match; auto using take_turn_holds, setup_holds.
Qed.
End HydrationAndLog.

Lemma reachable_run_keys keys w : reachable w -> reachable (run_keys keys w).
Proof.
  revert w. induction keys as [|k keys IH]; intros w Hw; [done|].
  simpl. apply IH. by constructor.
Qed.

Lemma reachable_hydrated w :
  reachable w -> hydration (player w) = 100 ∧ Dehydrated ∉ trace w.
Proof.
  set (R := fun (h : Z) (t : list Event) => h = 100 ∧ Dehydrated ∉ t).
  assert (H1 : ∀ h t, R h t -> R 100 t) by (intros h t [_ ?]; by split).
  assert (H2 : ∀ h t e, R h t -> e ≠ Dehydrated -> R h (t ++ [e])).
  { intros h t e [-> Ht] He. split; [done|].
    rewrite elem_of_app, list_elem_of_singleton. intros [?|?]; done. }
  assert (H3 : ∀ h t, R h t -> h < 10 -> R h (t ++ [Dehydrated]))
    by (intros h t [-> _] ?; lia).
  intros Hw. induction Hw as [lines|w key _ IH].
  - apply (setup_holds R H1 (boot lines)). split; [done|]. apply not_elem_of_nil.
  - by apply (keyPressed_holds R H1 H2 H3).
Qed.

(** C10: in every world the program can reach (after [setup] on any
    console input and any sequence of key presses, over the shipped
    catalogue), hydration is 100 and the dehydration branch has never run.
    Hydration starts at 100 and, from any world at all, a key press leaves
    it as it is or sets it to 100. *)
Theorem hydration_is_always_full :
  (∀ w, reachable w -> hydration (player w) = 100 ∧ Dehydrated ∉ trace w) ∧
  hydration Player_new = 100 ∧
  (∀ key w, hydration (player (keyPressed key w).2) = hydration (player w) ∨
            hydration (player (keyPressed key w).2) = 100).
Proof.
  split; [exact reachable_hydrated|split; [done|]].
  intros key w.
  set (R := fun (h : Z) (t : list Event) => h = hydration (player w) ∨ h = 100).
  apply (keyPressed_holds R); unfold log_holds, R; auto.
Qed.

Lemma lost_world_reachable : reachable lost_world.
Proof. apply reachable_run_keys. constructor. Qed.

Example lost_world_is_lost :
  game_over (player lost_world) = true ∧ health (player lost_world) = -4 ∧
  last (trace lost_world) = Some CallLose ∧ stdin lost_world = ["demo"%string].
Proof. split_all; by_compute. Qed.

Lemma hydration_witness :
  reachable lost_world ∧
  hydration (player lost_world) = 100 ∧ Dehydrated ∉ trace lost_world.
Proof.
  split; [exact lost_world_reachable|].
  destruct hydration_is_always_full as [H _].
  exact (H lost_world lost_world_reachable).
Defined.

(** ** Reset after the game is over *)

(** C4: when the game is over ([lose] and [win] both set [game_over]) in a
    world the program can reach, and the console then yields the level name
    [lvl], the next [take_turn] moves nothing (no call is logged) and returns
    with health 100, hydration 100, an empty inventory, the position at the
    level's start coordinates and the game running again; the map is the one
    [Map.__init__] builds from the level's template: every block carries the
    tile and item its template codes stand for, and the player flag sits on
    the start coordinates only, whatever the previous map had become. *)
Theorem reset_restores_level_start dir w lvl rest :
  reachable w ->
  game_over (player w) = true ->
  choose_level_loop (stdin w) None = (Ret tt, Some lvl, rest) ->
  ∃ tpl m',
    maps !! lvl = Some tpl ∧
    take_turn dir w =
      (Ret tt,
       mkWorld
         (mkPlayer 100 0 100 [] (player_start_x tpl) (player_start_y tpl) false
            (Some lvl) (move_direction (player w)))
         (Some m') rest (trace w)) ∧
    Map_name m' = lvl ∧ win_condition m' = tpl_win_condition tpl ∧
    rectangular (blocks m') ∧ length (blocks m') = length (tpl_terrain tpl) ∧
    ∀ r c b, block_at (blocks m') (r, c) = Some b ->
      Block_x b = Z.of_nat c ∧ Block_y b = Z.of_nat r ∧
      Block_has_player b =
        bool_decide (Z.of_nat c = player_start_x tpl ∧ Z.of_nat r = player_start_y tpl) ∧
      ∃ tcode icode,
        (tpl_terrain tpl !! r) ≫= (.!! c) = Some tcode ∧
        terrain !! tcode = Some (Block_tiletype b) ∧
        (tpl_items tpl !! r) ≫= (.!! c) = Some icode ∧
        item !! icode = Some (Block_item b).
Proof.
  intros Hreach Hgo Hloop.
  destruct (reachable_hydrated w Hreach) as [Hhyd _].
  rewrite (take_turn_game_over _ _ Hgo), reset_level_unfold.
  destruct (choose_then_start (with_player (set_chosen_level None (player w)) w) eq_refl)
    as [(lvl' & tpl & rest' & m' & Hloop' & Htpl & Hbuild & ->)|(cur & Hloop' & _)];
    simpl in Hloop'; rewrite Hloop in Hloop'; [|done].
  injection Hloop' as <- <-.
  exists tpl, m'. split; [done|].
  destruct (Map_build_rectangular _ _ _ _ Hbuild) as (Hrect & Hlen & Hname & Hwin).
  split; [|split; [done|split; [done|split; [done|split; [done|]]]]].
  - clear -Hhyd. destruct w as [[h c hy inv px py go cl md] mo inp tr].
    simpl in Hhyd. subst hy. reflexivity.
  - intros r c b Hb. apply (Map_build_lookup _ _ _ _ _ _ _ Hbuild) in Hb.
    apply build_block_Ret in Hb. exact Hb.
Qed.

Lemma reset_witness :
  (reachable lost_world ∧ game_over (player lost_world) = true ∧
   choose_level_loop (stdin lost_world) None = (Ret tt, Some "demo"%string, [])) ∧
  ∃ tpl m',
    maps !! "demo"%string = Some tpl ∧
    take_turn "up" lost_world =
      (Ret tt,
       mkWorld
         (mkPlayer 100 0 100 [] (player_start_x tpl) (player_start_y tpl) false
            (Some "demo"%string) (move_direction (player lost_world)))
         (Some m') [] (trace lost_world)).
Proof.
  assert (H1 : game_over (player lost_world) = true) by by_compute.
  assert (H2 : choose_level_loop (stdin lost_world) None
               = (Ret tt, Some "demo"%string, [])) by by_compute.
  split; [auto using lost_world_reachable|].
  destruct (reset_restores_level_start "up" lost_world "demo" []
              lost_world_reachable H1 H2) as (tpl & m' & Htpl & Heq & _).
  exists tpl, m'. split; assumption.
Defined.

(** The third key ends the game on the turn that collects it; the start
    block has melted by then, and is Ice again after the reset. *)
Example demo_played_and_reset :
  inventory (player won_world) = ["key"; "key"; "key"]%string ∧
  game_over (player won_world) = true ∧
  last (trace won_world) = Some CallWin ∧
  tile_of won_world (0%nat, 2%nat) = Some Water ∧
  tile_of (keyPressed "w" won_world).2 (0%nat, 2%nat) = Some Ice ∧
  player (keyPressed "w" won_world).2 =
    mkPlayer 100 0 100 [] 2 0 false (Some "demo"%string) (Some "left"%string) ∧
  trace (keyPressed "w" won_world).2 = trace won_world.
Proof. split_all; by_compute. Qed.

(** ** The player flag *)

Lemma block_at_alter_inv f ref' bl ref b' :
  block_at (alter_block f ref' bl) ref = Some b' ->
  ∃ b, block_at bl ref = Some b ∧
       ((ref = ref' ∧ b' = f b) ∨ (ref ≠ ref' ∧ b' = b)).
Proof.
  intros H. destruct (decide (ref' = ref)) as [->|Hne].
  - destruct (block_at bl ref) as [b|] eqn:Hb.
    + rewrite (block_at_alter_eq _ _ _ _ Hb) in H. injection H as <-. eauto.
    + exfalso. revert H Hb. unfold block_at, alter_block. destruct ref as [r c]; simpl.
      rewrite list_lookup_alter_eq. destruct (bl !! r) as [row|]; simpl; [|done].
      rewrite list_lookup_alter_eq. intros H Hn. by rewrite Hn in H.
  - rewrite block_at_alter_ne in H by done. exists b'. split; [done|]. right. by split.
Qed.

Lemma Map_build_flags_ok n tpl p m :
  Map_build n tpl p = Ret m -> flags_ok (Player_x p) (Player_y p) (blocks m).
Proof.
  intros Hbuild r c b Hb.
  apply (Map_build_lookup _ _ _ _ _ _ _ Hbuild) in Hb.
  apply build_block_Ret in Hb as (Hx & Hy & Hflag & _).
  split; [done|]. split; [done|]. rewrite Hflag. apply bool_decide_eq_true_1.
Qed.

Lemma moved_flags_ok px py nx ny bl cur :
  0 <= nx -> 0 <= ny ->
  flags_ok px py bl ->
  locate_in bl py px = Ret cur ->
  flags_ok nx ny
    (alter_block entered_block (Z.to_nat ny, Z.to_nat nx)
       (alter_block left_block cur bl)).
Proof.
  intros Hnx Hny Hok Hcur r c b2 Hb2.
  apply block_at_alter_inv in Hb2 as (b1 & Hb1 & Hcase2).
  apply block_at_alter_inv in Hb1 as (b & Hb & Hcase1).
  destruct (Hok r c b Hb) as (Hx & Hy & Hflag).
  assert (Hxy1 : Block_x b1 = Z.of_nat c ∧ Block_y b1 = Z.of_nat r).
  { destruct Hcase1 as [[_ ->]|[_ ->]]; [|done].
    unfold left_block. by destruct (Block_tiletype b). }
  assert (Hxy2 : Block_x b2 = Z.of_nat c ∧ Block_y b2 = Z.of_nat r).
  { destruct Hcase2 as [[_ ->]|[_ ->]]; [|done].
    unfold entered_block. by destruct (Block_item b1) as [[|]|]. }
  split; [apply Hxy2|]. split; [apply Hxy2|]. intros Hset.
  destruct Hcase2 as [[[= -> ->] _]|[Hne ->]]; [lia|].
  exfalso. destruct Hcase1 as [[_ ->]|[Hne1 ->]].
  - unfold left_block in Hset. by destruct (Block_tiletype b).
  - destruct (Hflag Hset) as [<- <-].
    apply locate_in_nonneg in Hcur; [|lia..].
    rewrite !Nat2Z.id in Hcur. congruence.
Qed.

Lemma take_turn_world_ok dir w : world_ok w -> world_ok (take_turn dir w).2.
Proof.
  intros Hok. destruct (game_over (player w)) eqn:Hgo.
  - rewrite (take_turn_game_over _ _ Hgo), reset_level_unfold.
    destruct (choose_then_start (with_player (set_chosen_level None (player w)) w) eq_refl)
      as [(lvl & tpl & rest & m' & _ & _ & Hbuild & ->)|(cur & _ & ->)].
    + intros m [= <-]. exact (Map_build_flags_ok _ _ _ _ Hbuild).
    + exact Hok.
  - destruct (map w) as [m|] eqn:Hm.
    2:{ rewrite take_turn_no_map by done. intros m' Hm'. simpl in Hm'. congruence. }
    destruct (take_turn_cases dir w m Hm Hgo)
      as [E|[E|(cur & bc & bd & (Hx & Hy & Hcur & _) & E)]]; rewrite E.
    + intros m' Hm'. apply Hok. exact Hm'.
    + destruct (end_of_turn_frame (turn_start dir w) m Hm) as (Ex & Ey & _ & _ & Em).
      intros m' Hm'. rewrite Ex, Ey. rewrite Em in Hm'. apply Hok. exact Hm'.
    + set (w1 := moved_world _ _ _ _ _ _ _ _).
      destruct (end_of_turn_frame w1 _ eq_refl) as (Ex & Ey & _ & _ & Em).
      intros m' Hm'. rewrite Ex, Ey. rewrite Em in Hm'. simpl in Hm' |- *.
      injection Hm' as <-. simpl.
      apply (moved_flags_ok (Player_x (player w)) (Player_y (player w)));
        [done|done|by apply Hok|exact Hcur].
Qed.

Lemma setup_world_ok w : world_ok (setup w).2.
Proof.
  rewrite setup_unfold.
  destruct (choose_then_start (with_map None (with_player Player_new w)) eq_refl)
    as [(lvl & tpl & rest & m' & _ & _ & Hbuild & ->)|(cur & _ & ->)].
  - intros m [= <-]. exact (Map_build_flags_ok _ _ _ _ Hbuild).
  - intros m Hm. done.
Qed.

Lemma reachable_world_ok w : reachable w -> world_ok w.
Proof.
  induction 1 as [lines|w key _ IH]; [apply setup_world_ok|].
  unfold keyPressed.
  repeat case_match; auto using take_turn_world_ok, setup_world_ok.
Qed.

(** C9: in the map [Map.__init__] builds, and in every world the program can
    reach (so after every [take_turn], whether it moved, stayed, reset the
    level or raised), every block flagged as holding the player carries the
    player's tracked coordinates, and no two blocks are flagged. *)
Theorem player_flag_is_unique :
  (∀ n tpl p m, Map_build n tpl p = Ret m ->
     ∀ ref ref' b b',
       block_at (blocks m) ref = Some b -> Block_has_player b = true ->
       (Block_x b = Player_x p ∧ Block_y b = Player_y p) ∧
       (block_at (blocks m) ref' = Some b' -> Block_has_player b' = true -> ref = ref')) ∧
  (∀ w m, reachable w -> map w = Some m ->
     ∀ ref ref' b b',
       block_at (blocks m) ref = Some b -> Block_has_player b = true ->
       (Block_x b = Player_x (player w) ∧ Block_y b = Player_y (player w)) ∧
       (block_at (blocks m) ref' = Some b' -> Block_has_player b' = true -> ref = ref')) ∧
  (∀ dir w, world_ok w -> world_ok (take_turn dir w).2).
Proof.
  assert (Hgen : ∀ px py bl, flags_ok px py bl ->
     ∀ ref ref' b b',
       block_at bl ref = Some b -> Block_has_player b = true ->
       (Block_x b = px ∧ Block_y b = py) ∧
       (block_at bl ref' = Some b' -> Block_has_player b' = true -> ref = ref')).
  { intros px py bl Hok [r c] [r' c'] b b' Hb Hset.
    destruct (Hok r c b Hb) as (Hx & Hy & Hflag). destruct (Hflag Hset) as [Hc Hr].
    split; [lia|]. intros Hb' Hset'.
    destruct (Hok r' c' b' Hb') as (_ & _ & Hflag'). destruct (Hflag' Hset') as [Hc' Hr'].
    f_equal; lia. }
  split; [|split].
  - intros n tpl p m Hbuild. apply Hgen. by eapply Map_build_flags_ok.
  - intros w m Hreach Hm. apply Hgen. by apply (reachable_world_ok w Hreach).
  - intros dir w. apply take_turn_world_ok.
Qed.

Lemma player_flag_witness :
  (Map_build "demo" demo (set_y 0 (set_x 2 Player_new)) = Ret demo_map ∧
   block_at (blocks demo_map) (0%nat, 2%nat) = Some (mkBlock Ice None true 2 0)) ∧
  Block_x (mkBlock Ice None true 2 0) = Player_x (set_y 0 (set_x 2 Player_new)) ∧
  Block_y (mkBlock Ice None true 2 0) = Player_y (set_y 0 (set_x 2 Player_new)).
Proof.
  assert (H1 : Map_build "demo" demo (set_y 0 (set_x 2 Player_new)) = Ret demo_map)
    by by_compute.
  assert (H2 : block_at (blocks demo_map) (0%nat, 2%nat)
               = Some (mkBlock Ice None true 2 0)) by by_compute.
  split; [auto|].
  destruct player_flag_is_unique as [Hbuild _].
  exact (proj1 (Hbuild _ _ _ _ H1 (0%nat, 2%nat) (0%nat, 2%nat) _
                  (mkBlock Ice None true 2 0) H2 eq_refl)).
Defined.

(** * Further properties of the turn engine *)

(** ** What one running turn does to the player *)

Lemma after_checks_health m p :
  health (after_win_check m (after_dehydration (after_lose_check p))) =
    health p - (if hydration p <? 10 then 2 else 0).
Proof.
  unfold after_win_check, after_dehydration, after_lose_check.
  destruct (health p <=? 0); simpl; (destruct (hydration p <? 10); simpl);
    (destruct (win_condition m _); simpl); lia.
Qed.

Lemma end_of_turn_health w m :
  map w = Some m ->
  health (player (end_of_turn w).2) =
    health (player w) - (if hydration (player w) <? 10 then 2 else 0).
Proof.
  intros Hm. rewrite (end_of_turn_run _ m) by done. simpl. apply after_checks_health.
Qed.

Lemma end_of_turn_trace w m :
  map w = Some m ->
  trace (end_of_turn w).2 = trace w ++ end_of_turn_events m (player w).
Proof. intros Hm. by rewrite (end_of_turn_run _ m). Qed.

Lemma entered_player_health b p :
  health (entered_player b p) =
    health p - (if decide (Block_tiletype b = Sludge) then 8 else 0).
Proof.
  unfold entered_player, item_enter_player, tile_enter_player.
  destruct (Block_item b) as [[|]|], (Block_tiletype b); simpl; lia.
Qed.

Lemma entered_player_inventory b p :
  inventory (entered_player b p) =
    inventory p ++ (if decide (Block_item b = Some Key) then ["key"%string] else []).
Proof.
  unfold entered_player, item_enter_player.
  destruct (Block_item b) as [[|]|]; simpl;
    rewrite tile_enter_player_inventory, ?app_nil_r; reflexivity.
Qed.

(** The world right after the movement phase of a turn that moves. *)
Lemma moved_turn_facts dir w m cur bc bd :
  map w = Some m ->
  let w1 := moved_world (turn_start dir w) m cur
              (Z.to_nat (new_y dir (player w)), Z.to_nat (new_x dir (player w)))
              bc bd (new_x dir (player w)) (new_y dir (player w)) in
  let w' := (end_of_turn w1).2 in
  (end_of_turn w1).1 = Ret tt ∧
  Player_x (player w') = new_x dir (player w) ∧
  Player_y (player w') = new_y dir (player w) ∧
  hydration (player w') = hydration (entered_player bd (player w)) ∧
  inventory (player w') = inventory (entered_player bd (player w)) ∧
  health (player w') =
    health (entered_player bd (player w)) -
    (if hydration (entered_player bd (player w)) <? 10 then 2 else 0) ∧
  map w' = map w1.
Proof.
  intros Hm w1 w'.
  destruct (end_of_turn_frame w1 _ eq_refl) as (Ex & Ey & Ei & Eh & Em).
  pose proof (end_of_turn_health w1 _ eq_refl) as Ehealth.
  assert (Hp : ∀ b p d,
            hydration (entered_player b (set_move_direction d p))
              = hydration (entered_player b p) ∧
            inventory (entered_player b (set_move_direction d p))
              = inventory (entered_player b p) ∧
            health (entered_player b (set_move_direction d p))
              = health (entered_player b p)).
  { intros b p d. unfold entered_player, item_enter_player, tile_enter_player.
    destruct (Block_item b) as [[|]|], (Block_tiletype b); done. }
  destruct (Hp bd (player w) (Some dir)) as (H1 & H2 & H3).
  split; [by rewrite (end_of_turn_run w1 _ eq_refl)|].
  unfold w'. rewrite Ex, Ey, Ei, Eh, Em, Ehealth. simpl.
  rewrite H1, H2, H3. done.
Qed.

(** X1: a running turn that returns never raises health.  When the player
    stays, health drops only by the dehydration penalty; when the player
    moves, it drops by 8 if the block entered is Sludge and by nothing for
    any other tile (Lava, HealBlock, OneTimeHeal, Teleporter and QuickSand
    included), and then by the dehydration penalty: 2 if hydration is below
    10 at the end of the turn. *)
Theorem running_turn_health dir w m :
  map w = Some m ->
  game_over (player w) = false ->
  (take_turn dir w).1 = Ret tt ->
  let w' := (take_turn dir w).2 in
  let penalty := if hydration (player w') <? 10 then 2 else 0 in
  health (player w') <= health (player w) ∧
  ((stays_put w w' ∧ health (player w') = health (player w) - penalty) ∨
   ∃ cur bc bd, is_move dir w m cur bc bd ∧
     health (player w') =
       health (player w) - (if decide (Block_tiletype bd = Sludge) then 8 else 0)
       - penalty).
Proof.
  intros Hm Hgo Hret.
  destruct (take_turn_cases dir w m Hm Hgo)
    as [E|[E|(cur & bc & bd & Hmove & E)]]; rewrite E in Hret |- *; [done| |].
  - cbv zeta. pose proof (stays_put_end_of_turn dir w m Hm) as Hs.
    destruct (end_of_turn_frame (turn_start dir w) m Hm) as (_ & _ & _ & Eh & _).
    rewrite (end_of_turn_health (turn_start dir w) m Hm), Eh. simpl.
    split; [case_match; lia|]. left. done.
  - cbv zeta.
    destruct (moved_turn_facts dir w m cur bc bd Hm) as (_ & _ & _ & Eh & _ & Ehealth & _).
    rewrite Ehealth, Eh, entered_player_health.
    split; [repeat case_match; lia|]. right. exists cur, bc, bd. done.
Qed.

Lemma running_turn_health_witness :
  (map corridor_world = Some corridor_map ∧
   game_over (player corridor_world) = false ∧
   (take_turn "right" corridor_world).1 = Ret tt) ∧
  health (player (take_turn "right" corridor_world).2) <= health (player corridor_world).
Proof.
  assert (H1 : map corridor_world = Some corridor_map) by by_compute.
  assert (H2 : game_over (player corridor_world) = false) by by_compute.
  assert (H3 : (take_turn "right" corridor_world).1 = Ret tt) by by_compute.
  split; [auto|].
  exact (proj1 (running_turn_health "right" corridor_world corridor_map H1 H2 H3)).
Defined.

(** X2: a running turn, whether it returns or raises, either leaves the
    inventory as it is or appends one "key" at its end; the key is appended
    exactly when the player moves onto a block that holds a [Key]. *)
Theorem running_turn_inventory dir w m :
  map w = Some m ->
  game_over (player w) = false ->
  let w' := (take_turn dir w).2 in
  (stays_put w w' ∧ inventory (player w') = inventory (player w)) ∨
  ∃ cur bc bd, is_move dir w m cur bc bd ∧
    inventory (player w') =
      inventory (player w) ++
      (if decide (Block_item bd = Some Key) then ["key"%string] else []).
Proof.
  intros Hm Hgo.
  destruct (take_turn_cases dir w m Hm Hgo)
    as [E|[E|(cur & bc & bd & Hmove & E)]]; rewrite E; cbv zeta.
  - left. pose proof (stays_put_start dir w) as Hs. split; [done|apply Hs].
  - left. pose proof (stays_put_end_of_turn dir w m Hm) as Hs. split; [done|apply Hs].
  - right. exists cur, bc, bd. split; [done|].
    destruct (moved_turn_facts dir w m cur bc bd Hm) as (_ & _ & _ & _ & -> & _).
    apply entered_player_inventory.
Qed.

Lemma running_turn_inventory_witness :
  (map demo_world = Some demo_map ∧ game_over (player demo_world) = false) ∧
  ((stays_put demo_world (take_turn "down" demo_world).2 ∧
    inventory (player (take_turn "down" demo_world).2) = inventory (player demo_world)) ∨
   ∃ cur bc bd, is_move "down" demo_world demo_map cur bc bd ∧
     inventory (player (take_turn "down" demo_world).2) =
       inventory (player demo_world) ++
       (if decide (Block_item bd = Some Key) then ["key"%string] else [])).
Proof.
  assert (H1 : map demo_world = Some demo_map) by by_compute.
  assert (H2 : game_over (player demo_world) = false) by by_compute.
  split; [auto|].
  exact (running_turn_inventory "down" demo_world demo_map H1 H2).
Defined.

Lemma new_xy_one_step dir p :
  Z.abs (new_x dir p - Player_x p) + Z.abs (new_y dir p - Player_y p) <= 1.
Proof.
  unfold new_x, new_y.
  destruct (String.eqb dir "left"); [lia|].
  destruct (String.eqb dir "right"); [lia|].
  destruct (String.eqb dir "up"); [lia|].
  destruct (String.eqb dir "down"); lia.
Qed.

(** The three ways of [take_turn_cases], with the bounds the test of the
    [if] checked before a move. *)
Lemma take_turn_cases_bounds dir w m :
  map w = Some m -> game_over (player w) = false ->
  take_turn dir w = (Raise IndexError, turn_start dir w) ∨
  take_turn dir w = end_of_turn (turn_start dir w) ∨
  ∃ cur bc bd, is_move dir w m cur bc bd ∧
    new_x dir (player w) < grid_height (blocks m) ∧
    new_y dir (player w) < grid_width (blocks m) ∧
    take_turn dir w =
      end_of_turn
        (moved_world (turn_start dir w) m cur
           (Z.to_nat (new_y dir (player w)), Z.to_nat (new_x dir (player w)))
           bc bd (new_x dir (player w)) (new_y dir (player w))).
Proof.
  intros Hm Hgo. rewrite (take_turn_run _ _ _ Hm Hgo). cbv zeta.
  fold (turn_start dir w). set (w0 := turn_start dir w).
  assert (Hm0 : map w0 = Some m) by done.
  destruct (locate_in _ _ _) as [cur|e] eqn:Hcur;
    [|apply locate_in_raise in Hcur as ->; auto].
  unfold mbind, M_bind. rewrite attempt_move_unfold.
  change (player w0) with (set_move_direction (Some dir) (player w)).
  change (new_x dir (set_move_direction (Some dir) (player w)))
    with (new_x dir (player w)).
  change (new_y dir (set_move_direction (Some dir) (player w)))
    with (new_y dir (player w)).
  destruct (may_move_outcome (new_x dir (player w)) (new_y dir (player w)) w0 m Hm0)
    as [Ht|[Hf| Hr]]; rewrite ?Ht, ?Hf, ?Hr; auto.
  right; right.
  apply (may_move_true _ _ _ m Hm0) in Ht as (Hx & Hy & Hdest & d & Hd & Hcan).
  destruct (locate_in_Some _ _ _ _ Hcur) as [bc Hbc].
  assert (Hbd : is_Some (block_at (alter_block left_block cur (blocks m))
            (Z.to_nat (new_y dir (player w)), Z.to_nat (new_x dir (player w))))).
  { apply (locate_in_Some _ (new_y dir (player w)) (new_x dir (player w))).
    rewrite (locate_in_shape _ (blocks m)) by apply shape_alter_block. done. }
  destruct Hbd as [bd Hbd].
  exists cur, bc, bd. split; [|split; [lia|split; [lia|]]].
  - simpl in Hcan. rewrite can_enter_move_direction in Hcan.
    unfold is_move. repeat split; try lia; try done. eauto.
  - erewrite do_move_run; [reflexivity|done|exact Hcur|exact Hbc|exact Hdest|exact Hbd].
Qed.

(** X3: a running turn leaves the player where it is or puts it on the
    candidate cell, which lies at most one step away (a Teleporter block
    moves nobody further); the player only ever moves to a cell with
    non-negative coordinates, [new_x] below the number of rows and [new_y]
    below the length of row 0, whose block accepted the player. *)
Theorem running_turn_position dir w m :
  map w = Some m ->
  game_over (player w) = false ->
  let w' := (take_turn dir w).2 in
  Z.abs (Player_x (player w') - Player_x (player w)) +
  Z.abs (Player_y (player w') - Player_y (player w)) <= 1 ∧
  ((Player_x (player w') = Player_x (player w) ∧
    Player_y (player w') = Player_y (player w)) ∨
   (Player_x (player w') = new_x dir (player w) ∧
    Player_y (player w') = new_y dir (player w) ∧
    0 <= new_x dir (player w) < grid_height (blocks m) ∧
    0 <= new_y dir (player w) < grid_width (blocks m) ∧
    ∃ d, block_at (blocks m)
           (Z.to_nat (new_y dir (player w)), Z.to_nat (new_x dir (player w))) = Some d ∧
         TileType_can_enter (Block_tiletype d) (player w) = true)).
Proof.
  intros Hm Hgo.
  destruct (take_turn_cases_bounds dir w m Hm Hgo)
    as [E|[E|(cur & bc & bd & Hmove & Hbx & Hby & E)]]; rewrite E; cbv zeta.
  - cbn [snd]. destruct (stays_put_start dir w) as (Ex & Ey & _). rewrite Ex, Ey.
    split; [lia|by left].
  - destruct (stays_put_end_of_turn dir w m Hm) as (Ex & Ey & _). rewrite Ex, Ey.
    split; [lia|by left].
  - destruct (moved_turn_facts dir w m cur bc bd Hm) as (_ & Ex & Ey & _).
    rewrite Ex, Ey.
    split; [apply new_xy_one_step|]. right.
    destruct Hmove as (Hx & Hy & _ & _ & _ & d & Hd & Hcan).
    split; [done|]. split; [done|]. split; [lia|]. split; [lia|]. eauto.
Qed.

Lemma running_turn_position_witness :
  (map demo_world = Some demo_map ∧ game_over (player demo_world) = false) ∧
  Z.abs (Player_x (player (take_turn "down" demo_world).2) - Player_x (player demo_world)) +
  Z.abs (Player_y (player (take_turn "down" demo_world).2) - Player_y (player demo_world)) <= 1.
Proof.
  assert (H1 : map demo_world = Some demo_map) by by_compute.
  assert (H2 : game_over (player demo_world) = false) by by_compute.
  split; [auto|].
  exact (proj1 (running_turn_position "down" demo_world demo_map H1 H2)).
Defined.

(** ** What one running turn does to the map *)

Lemma moved_blocks_elsewhere bl cur dest ref :
  ref ≠ cur -> ref ≠ dest ->
  block_at (alter_block entered_block dest (alter_block left_block cur bl)) ref
    = block_at bl ref.
Proof.
  intros H1 H2. rewrite !block_at_alter_ne; done.
Qed.

(** X4: a running turn never changes the name, the win predicate or the
    row lengths of the map, and it leaves every block untouched except the
    block under the player and the destination block.  Those two change only
    by [leave] (flag cleared, Ice to Water) and [enter] (flag set, Key
    removed). *)
Theorem running_turn_map_frame dir w m :
  map w = Some m ->
  game_over (player w) = false ->
  ∃ m', map (take_turn dir w).2 = Some m' ∧
    Map_name m' = Map_name m ∧
    win_condition m' = win_condition m ∧
    shape (blocks m') = shape (blocks m) ∧
    (blocks m' = blocks m ∨
     ∃ cur bc bd, is_move dir w m cur bc bd ∧
       blocks m' =
         alter_block entered_block
           (Z.to_nat (new_y dir (player w)), Z.to_nat (new_x dir (player w)))
           (alter_block left_block cur (blocks m)) ∧
       ∀ ref, ref ≠ cur ->
         ref ≠ (Z.to_nat (new_y dir (player w)), Z.to_nat (new_x dir (player w))) ->
         block_at (blocks m') ref = block_at (blocks m) ref).
Proof.
  intros Hm Hgo.
  destruct (take_turn_cases dir w m Hm Hgo)
    as [E|[E|(cur & bc & bd & Hmove & E)]]; rewrite E.
  - exists m. repeat split; auto.
  - destruct (end_of_turn_frame (turn_start dir w) m Hm) as (_ & _ & _ & _ & ->).
    exists m. repeat split; auto.
  - destruct (moved_turn_facts dir w m cur bc bd Hm) as (_ & _ & _ & _ & _ & _ & ->).
    eexists. split; [reflexivity|]. simpl.
    split; [done|]. split; [done|].
    split; [by rewrite !shape_alter_block|].
    right. exists cur, bc, bd. split; [done|]. split; [done|].
    intros ref H1 H2. by apply moved_blocks_elsewhere.
Qed.

Lemma running_turn_map_frame_witness :
  (map demo_world = Some demo_map ∧ game_over (player demo_world) = false) ∧
  ∃ m', map (take_turn "down" demo_world).2 = Some m' ∧
        shape (blocks m') = shape (blocks demo_map).
Proof.
  assert (H1 : map demo_world = Some demo_map) by by_compute.
  assert (H2 : game_over (player demo_world) = false) by by_compute.
  split; [auto|].
  destruct (running_turn_map_frame "down" demo_world demo_map H1 H2)
    as (m' & Hm' & _ & _ & Hs & _).
  exists m'. split; assumption.
Defined.

Lemma left_block_keeps_tile b :
  Block_tiletype b ≠ Ice -> Block_tiletype (left_block b) = Block_tiletype b.
Proof.
  intros H. unfold left_block.
  destruct (Block_tiletype b) eqn:E; simpl; first [exact E|done].
Qed.

(** X5: only Ice ever changes.  A block whose tile is not Ice keeps that
    tile over any turns taken without a reset in between, whatever enters or
    leaves it: Sludge is not cleared by being stepped on, OneTimeHeal is not
    used up, Rock stays Rock. *)
Theorem tile_other_than_ice_is_kept w w' m ref b :
  plays_on w w' ->
  map w = Some m ->
  block_at (blocks m) ref = Some b ->
  Block_tiletype b ≠ Ice ->
  tile_of w' ref = Some (Block_tiletype b).
Proof.
  intros Hplay Hm Hb Hice.
  destruct (plays_on_preserves_block
              (fun b' => Block_tiletype b' = Block_tiletype b) w w' m ref b)
    as (m' & b' & Hm' & Hb' & Ht); try done.
  - intros b' Hb'. rewrite left_block_keeps_tile; [done|]. by rewrite Hb'.
  - intros b' Hb'. by rewrite entered_block_keeps_tile.
  - unfold tile_of. rewrite Hm'. simpl. rewrite Hb'. simpl. by rewrite Ht.
Qed.

Lemma tile_other_than_ice_witness :
  (plays_on corridor_world (take_turn "right" corridor_world).2 ∧
   map corridor_world = Some corridor_map ∧
   block_at (blocks corridor_map) (1%nat, 1%nat) = Some (mkBlock Sludge None false 1 1)) ∧
  tile_of (take_turn "right" corridor_world).2 (1%nat, 1%nat) = Some Sludge.
Proof.
  assert (H0 : game_over (player corridor_world) = false) by by_compute.
  assert (H1 : plays_on corridor_world (take_turn "right" corridor_world).2)
    by (apply plays_turn; [apply plays_here|exact H0]).
  assert (H2 : map corridor_world = Some corridor_map) by by_compute.
  assert (H3 : block_at (blocks corridor_map) (1%nat, 1%nat)
               = Some (mkBlock Sludge None false 1 1)) by by_compute.
  split; [auto|].
  exact (tile_other_than_ice_is_kept corridor_world _ corridor_map (1%nat, 1%nat)
           (mkBlock Sludge None false 1 1) H1 H2 H3 ltac:(discriminate)).
Defined.

(** ** Choosing a level *)



Lemma choose_level_loop_exhausted lines cur :
  level_known cur = false ->
  Forall (fun l => level_known (Some l) = false) lines ->
  choose_level_loop lines cur =
    (Raise EOFError, from_option Some cur (last lines), []).
Proof.
  intros Hcur Hall. revert cur Hcur.
  induction Hall as [|l lines Hl _ IH]; intros cur Hcur; simpl; rewrite Hcur; [done|].
  rewrite (IH _ Hl). destruct lines as [|a t]; [done|].
  change (last (l :: a :: t)) with (last (a :: t)).
  destruct (last (a :: t)) eqn:E; [done|]. by apply last_None in E.
Qed.



(** X7: when no pending console line names a level, [choose_level] consumes
    them all and raises [EOFError]; [chosen_level] is then the last line read
    (or what it was, when there was no line). *)
Theorem choose_level_exhausts_input w :
  level_known (chosen_level (player w)) = false ->
  Forall (fun l => level_known (Some l) = false) (stdin w) ->
  choose_level w =
    (Raise EOFError,
     with_stdin []
       (with_player
          (set_chosen_level
             (from_option Some (chosen_level (player w)) (last (stdin w))) (player w))
          w)).
Proof.
  intros Hcur Hall. unfold choose_level.
  by rewrite (choose_level_loop_exhausted _ _ Hcur Hall).
Qed.

Lemma choose_level_exhausts_witness :
  (level_known (chosen_level (player (boot ["demon"; "Demo"]%string))) = false ∧
   Forall (fun l => level_known (Some l) = false) ["demon"; "Demo"]%string) ∧
  choose_level (boot ["demon"; "Demo"]%string) =
    (Raise EOFError,
     with_stdin []
       (with_player (set_chosen_level (Some "Demo"%string) Player_new)
          (boot ["demon"; "Demo"]%string))).
Proof.
  assert (H1 : Forall (fun l => level_known (Some l) = false) ["demon"; "Demo"]%string)
    by (repeat constructor).
  split; [split; [reflexivity|exact H1]|].
  exact (choose_level_exhausts_input (boot ["demon"; "Demo"]%string) eq_refl H1).
Defined.

(** ** Restart and reset *)

(** X8: [setup] (the "q" key) restarts unconditionally: from any world,
    whatever the health, inventory, position or game-over flag were, once the
    console yields the level name [lvl] it returns with a new player at the
    level's start coordinates (health 100, hydration 100, nothing in the
    inventory, game running, no direction recorded) on the map built from
    the level's template; the log is kept. *)
Theorem setup_starts_afresh w lvl rest :
  choose_level_loop (stdin w) None = (Ret tt, Some lvl, rest) ->
  ∃ tpl m',
    maps !! lvl = Some tpl ∧
    keyPressed "q" w = setup w ∧
    setup w =
      (Ret tt,
       mkWorld
         (mkPlayer 100 0 100 [] (player_start_x tpl) (player_start_y tpl) false
            (Some lvl) None)
         (Some m') rest (trace w)) ∧
    Map_build lvl tpl
      (mkPlayer 100 0 100 [] (player_start_x tpl) (player_start_y tpl) false
         (Some lvl) None) = Ret m'.
Proof.
  intros Hloop.
  destruct (choose_then_start (with_map None (with_player Player_new w)) eq_refl)
    as [(lvl' & tpl & rest' & m' & Hloop' & Htpl & Hbuild & E)|(cur & Hloop' & _)];
    simpl in Hloop'; rewrite Hloop in Hloop'; [|done].
  injection Hloop' as <- <-. rewrite <- (setup_unfold w) in E.
  exists tpl, m'. split; [done|]. split; [reflexivity|]. split; [exact E|].
  exact Hbuild.
Qed.

Lemma setup_witness :
  choose_level_loop (stdin lost_world) None = (Ret tt, Some "demo"%string, []) ∧
  ∃ tpl m',
    maps !! "demo"%string = Some tpl ∧
    setup lost_world =
      (Ret tt,
       mkWorld
         (mkPlayer 100 0 100 [] (player_start_x tpl) (player_start_y tpl) false
            (Some "demo"%string) None)
         (Some m') [] (trace lost_world)).
Proof.
  assert (H : choose_level_loop (stdin lost_world) None
              = (Ret tt, Some "demo"%string, [])) by by_compute.
  split; [exact H|].
  destruct (setup_starts_afresh lost_world "demo" [] H) as (tpl & m' & H1 & _ & H2 & _).
  exists tpl, m'. split; assumption.
Defined.

(** X9: when the game is over and no pending console line names a level,
    the next [take_turn] raises [EOFError] and the game stays over: position,
    health, inventory, map and log are as before; only [chosen_level] (the
    last line read, if any) and the consumed input differ. *)
Theorem reset_without_level_stays_over dir w :
  game_over (player w) = true ->
  Forall (fun l => level_known (Some l) = false) (stdin w) ->
  take_turn dir w =
    (Raise EOFError,
     with_stdin []
       (with_player (set_chosen_level (last (stdin w)) (player w)) w)).
Proof.
  intros Hgo Hall.
  rewrite (take_turn_game_over _ _ Hgo), reset_level_unfold.
  unfold mbind, M_bind, choose_level. simpl.
  rewrite (choose_level_loop_exhausted _ None eq_refl Hall).
  by destruct (last (stdin w)).
Qed.

Lemma reset_without_level_witness :
  (game_over (player (with_stdin ["demon"%string] lost_world)) = true ∧
   Forall (fun l => level_known (Some l) = false)
     (stdin (with_stdin ["demon"%string] lost_world))) ∧
  take_turn "up" (with_stdin ["demon"%string] lost_world) =
    (Raise EOFError,
     with_stdin []
       (with_player
          (set_chosen_level (last (stdin (with_stdin ["demon"%string] lost_world)))
             (player (with_stdin ["demon"%string] lost_world)))
          (with_stdin ["demon"%string] lost_world))).
Proof.
  assert (H1 : game_over (player (with_stdin ["demon"%string] lost_world)) = true)
    by by_compute.
  assert (H2 : Forall (fun l => level_known (Some l) = false)
                 (stdin (with_stdin ["demon"%string] lost_world)))
    by (repeat constructor).
  split; [split; [exact H1|exact H2]|].
  exact (reset_without_level_stays_over "up" (with_stdin ["demon"%string] lost_world) H1 H2).
Defined.

(** ** When a map can be built *)

Lemma py_index_nat {A} (l : list A) (k : nat) :
  py_index l (Z.of_nat k) =
    match l !! k with Some a => Ret a | None => Raise IndexError end.
Proof.
  unfold py_index. destruct (l !! k) as [a|] eqn:Hk.
  - rewrite py_norm_in_range, Nat2Z.id, Hk; [done|].
    apply lookup_lt_Some in Hk. lia.
  - destruct (py_norm _ _) as [k'|] eqn:Hn; [|done].
    apply py_norm_nonneg in Hn as [-> _]; [|lia]. by rewrite Nat2Z.id, Hk.
Qed.

Lemma build_block_cell_ok tpl p r c :
  (∃ b, build_block tpl p r c = Ret b) ↔ cell_ok tpl r c = true.
Proof.
  unfold build_block, cell_ok, dict_get.
  unfold mbind at 1 2 3 4 5 6, result_bind, mret, result_ret.
  rewrite !py_index_nat.
  destruct (tpl_terrain tpl !! r) as [trow|];
    [|split; [intros [? ?]|]; done].
  change (Some trow ≫= (.!! c)) with (trow !! c). rewrite py_index_nat.
  destruct (trow !! c) as [tcode|]; [|split; [intros [? ?]|]; done].
  destruct (tpl_items tpl !! r) as [irow|].
  2:{ destruct (terrain !! tcode); split; try (intros [? ?]); done. }
  change (Some irow ≫= (.!! c)) with (irow !! c). rewrite py_index_nat.
  destruct (irow !! c) as [icode|].
  2:{ destruct (terrain !! tcode); split; try (intros [? ?]); done. }
  rewrite andb_true_iff, !bool_decide_eq_true.
  destruct (terrain !! tcode) as [t|], (item !! icode) as [i|];
    (split; [intros [b Hb]|intros [[t' Ht'] [i' Hi']]]); simplify_eq;
    repeat split; eauto.
Qed.

Lemma build_block_raise tpl p r c e :
  build_block tpl p r c = Raise e -> e = IndexError ∨ e = KeyError.
Proof.
  unfold build_block, dict_get. unfold mbind, result_bind, mret, result_ret.
  destruct (py_index (tpl_terrain tpl) _) as [trow|e1] eqn:E1;
    [|apply py_index_raise in E1 as ->; intros [= <-]; auto].
  destruct (py_index trow _) as [tcode|e2] eqn:E2;
    [|apply py_index_raise in E2 as ->; intros [= <-]; auto].
  destruct (terrain !! tcode) as [t|]; [|intros [= <-]; auto].
  destruct (py_index (tpl_items tpl) _) as [irow|e3] eqn:E3;
    [|apply py_index_raise in E3 as ->; intros [= <-]; auto].
  destruct (py_index irow _) as [icode|e4] eqn:E4;
    [|apply py_index_raise in E4 as ->; intros [= <-]; auto].
  destruct (item !! icode) as [i|]; [done|intros [= <-]; auto].
Qed.

Lemma mapM_result_Ret_iff {A B} (f : A -> result B) l :
  (∃ l', mapM f l = Ret l') ↔ Forall (fun a => ∃ b, f a = Ret b) l.
Proof.
  induction l as [|a l IH].
  - split; [constructor|]. by exists [].
  - rewrite mapM_result_unfold. split.
    + intros [l' H]. destruct (f a) as [b|] eqn:Hb; [|done].
      destruct (mapM f l) as [k|] eqn:Hk; [|done].
      constructor; [eauto|]. apply IH. eauto.
    + intros H. apply Forall_cons in H as [[b ->] Hl].
      apply IH in Hl as [k ->]. eauto.
Qed.

Lemma mapM_result_Raise {A B} (f : A -> result B) l e :
  mapM f l = Raise e -> ∃ a, a ∈ l ∧ f a = Raise e.
Proof.
  induction l as [|a l IH]; [done|]. rewrite mapM_result_unfold.
  destruct (f a) as [b|e'] eqn:Hb.
  - destruct (mapM f l) as [k|e'] eqn:Hk; [done|]. intros [= ->].
    destruct IH as (a' & Ha' & Hf); [done|]. exists a'. split; [by right|done].
  - intros [= ->]. exists a. split; [by left|done].
Qed.

Lemma forallb_Forall_seq (P : nat -> bool) n :
  forallb P (seq 0 n) = true ↔ Forall (fun k => P k = true) (seq 0 n).
Proof. rewrite forallb_forall, Forall_forall. by setoid_rewrite list_elem_of_In. Qed.

Lemma build_row_ok tpl p width r :
  (∃ row, build_row tpl p width r = Ret row) ↔
  forallb (cell_ok tpl r) (seq 0 width) = true.
Proof.
  unfold build_row. rewrite mapM_result_Ret_iff, forallb_Forall_seq.
  apply Forall_iff. intros c. apply build_block_cell_ok.
Qed.

Lemma Map_build_rows n tpl p m :
  Map_build n tpl p = Ret m ->
  ∃ row0, tpl_terrain tpl !! 0%nat = Some row0 ∧ row0 ≠ [] ∧
          length (blocks m) = length (tpl_terrain tpl) ∧
          Forall (fun row => length row = length row0) (blocks m).
Proof.
  unfold Map_build. unfold mbind at 1, result_bind at 1.
  change 0 with (Z.of_nat 0). rewrite py_index_nat.
  destruct (tpl_terrain tpl !! 0%nat) as [row0|]; [|done].
  case_bool_decide as Hw; [done|].
  unfold mbind, result_bind, mret, result_ret.
  destruct (mapM _ _) as [bl|] eqn:Hbl; [|done]. intros [= <-].
  exists row0. split; [done|]. split; [by destruct row0|]. split.
  - apply mapM_result_length in Hbl. by rewrite length_seq in Hbl.
  - apply Forall_lookup. intros r row Hr.
    destruct (mapM_result_lookup _ _ _ _ _ Hbl Hr) as (yy & _ & Hrow).
    unfold build_row in Hrow. apply mapM_result_length in Hrow.
    by rewrite length_seq in Hrow.
Qed.

(** X10: [Map.__init__] on a template builds a map exactly when the terrain
    grid has a first row, that row is not empty, and every cell of the
    rectangle spanned by the number of rows and the length of the first row
    has a terrain code and an item code that are keys of their registries.
    Otherwise it raises [IndexError], [KeyError] or [ZeroDivisionError] and no
    map is made: an unknown code is never replaced by a default tile.  A built
    map has as many rows as the terrain grid, each as long as its first
    row. *)
Theorem Map_build_succeeds_iff_template_ok n tpl p :
  ((∃ m, Map_build n tpl p = Ret m) ↔ template_ok tpl = true) ∧
  (∀ e, Map_build n tpl p = Raise e ->
        e = IndexError ∨ e = KeyError ∨ e = ZeroDivisionError) ∧
  (tpl_terrain tpl = [] -> Map_build n tpl p = Raise IndexError) ∧
  (∀ rest, tpl_terrain tpl = [] :: rest -> Map_build n tpl p = Raise ZeroDivisionError) ∧
  (∀ m, Map_build n tpl p = Ret m ->
     ∃ row0, tpl_terrain tpl !! 0%nat = Some row0 ∧ row0 ≠ [] ∧
             length (blocks m) = length (tpl_terrain tpl) ∧
             Forall (fun row => length row = length row0) (blocks m)).
Proof.
  split; [|split; [|split; [|split]]].
  - unfold Map_build, template_ok. unfold mbind at 1, result_bind at 1.
    change 0 with (Z.of_nat 0). rewrite py_index_nat.
    destruct (tpl_terrain tpl) as [|row0 rest] eqn:Ht;
      [split; [intros [? ?]|]; done|].
    change ((row0 :: rest) !! 0%nat) with (Some row0). cbv beta iota.
    case_bool_decide as Hw; [split; [intros [? ?]|]; done|].
    rewrite andb_true_l. rewrite <- Ht.
    rewrite forallb_Forall_seq.
    unfold mbind, result_bind, mret, result_ret. split.
    + intros [m Hm].
      destruct (mapM _ _) as [bl|] eqn:Hbl; [|done].
      assert (Hex : ∃ bl, mapM (build_row tpl p (length row0))
                (seq 0 (length (tpl_terrain tpl))) = Ret bl) by eauto.
      apply mapM_result_Ret_iff in Hex.
      eapply Forall_impl; [exact Hex|]. intros r Hr. by apply build_row_ok in Hr.
    + intros Hall.
      assert (Hex : ∃ bl, mapM (build_row tpl p (length row0))
                (seq 0 (length (tpl_terrain tpl))) = Ret bl).
      { apply mapM_result_Ret_iff.
        eapply Forall_impl; [exact Hall|]. intros r Hr. by apply build_row_ok. }
      destruct Hex as [bl Hbl]. unfold result_bind, result_ret in Hbl.
      rewrite Hbl. eauto.
  - intros e. unfold Map_build. unfold mbind at 1, result_bind at 1.
    destruct (py_index _ 0) as [row0|e0] eqn:E0;
      [|apply py_index_raise in E0 as ->; intros [= <-]; auto].
    case_bool_decide; [intros [= <-]; auto|].
    unfold mbind, result_bind, mret, result_ret.
    destruct (mapM _ _) as [bl|e1] eqn:Hbl; [done|]. intros [= ->].
    apply mapM_result_Raise in Hbl as (r & _ & Hrow).
    unfold build_row in Hrow.
    apply mapM_result_Raise in Hrow as (c & _ & Hb).
    apply build_block_raise in Hb as [->| ->]; auto.
  - intros Ht. unfold Map_build. by rewrite Ht.
  - intros rest Ht. unfold Map_build. by rewrite Ht.
  - intros m. apply Map_build_rows.
Qed.

Lemma Map_build_witness :
  (template_ok tall_template = true ∧ tpl_terrain wide_template = [0; 0; 0] :: [[0; 0; 0]]) ∧
  ∃ m, Map_build "custom" tall_template Player_new = Ret m.
Proof.
  assert (H : template_ok tall_template = true) by by_compute.
  split; [split; [exact H|reflexivity]|].
  exact (proj2 (proj1 (Map_build_succeeds_iff_template_ok "custom" tall_template Player_new)) H).
Defined.

(** ** The shipped catalogue *)

Lemma shipped_templates lvl tpl :
  maps !! lvl = Some tpl ->
  (∃ row0, tpl_terrain tpl !! 0%nat = Some row0 ∧
           length row0 = length (tpl_terrain tpl)) ∧
  0 <= player_start_x tpl < Z.of_nat (length (tpl_terrain tpl)) ∧
  0 <= player_start_y tpl < Z.of_nat (length (tpl_terrain tpl)) ∧
  ∃ n, 1 <= n ∧ tpl_win_condition tpl = keys_equal n.
Proof.
  intros Hlvl. unfold maps in Hlvl. apply elem_of_list_to_map_2 in Hlvl.
  repeat (apply elem_of_cons in Hlvl as [[= -> ->]|Hlvl];
          [split; [eexists; split; reflexivity|];
           split; [vm_compute; split; [discriminate|reflexivity]|];
           split; [vm_compute; split; [discriminate|reflexivity]|];
           eexists; split; [|reflexivity]; lia|]).
  by apply elem_of_nil in Hlvl.
Qed.

Lemma square_shape bl bl' : shape bl = shape bl' -> square bl -> square bl'.
Proof.
  intros Hs Hsq. unfold square in *. rewrite Forall_lookup in Hsq |- *.
  intros r row' Hr'.
  destruct (shape_lookup _ _ _ _ (eq_sym Hs) Hr') as (row & Hr & Hlen).
  rewrite <- (shape_length _ _ Hs). rewrite <- (Hsq _ _ Hr). done.
Qed.

Lemma square_block_exists bl yy xx :
  square bl -> 0 <= yy < Z.of_nat (length bl) -> 0 <= xx < Z.of_nat (length bl) ->
  is_Some (block_at bl (Z.to_nat yy, Z.to_nat xx)).
Proof.
  intros Hsq Hy Hx. unfold block_at. simpl.
  destruct (bl !! Z.to_nat yy) as [row|] eqn:Hr.
  - simpl. apply lookup_lt_is_Some.
    unfold square in Hsq. rewrite Forall_lookup in Hsq. rewrite (Hsq _ _ Hr). lia.
  - apply lookup_ge_None in Hr. lia.
Qed.

Lemma locate_in_block bl yy xx b :
  0 <= yy -> 0 <= xx ->
  block_at bl (Z.to_nat yy, Z.to_nat xx) = Some b ->
  locate_in bl yy xx = Ret (Z.to_nat yy, Z.to_nat xx).
Proof.
  intros Hy Hx Hb. unfold block_at in Hb. simpl in Hb.
  destruct (bl !! Z.to_nat yy) as [row|] eqn:Hr; [|done]. simpl in Hb.
  pose proof (lookup_lt_Some _ _ _ Hr). pose proof (lookup_lt_Some _ _ _ Hb).
  unfold locate_in.
  rewrite py_norm_in_range by lia. rewrite Hr.
  rewrite py_norm_in_range by lia. done.
Qed.

(** On a square grid the test of the [if] never raises. *)
Lemma may_move_square nx ny w m e :
  map w = Some m -> square (blocks m) -> (may_move nx ny w).1 ≠ Raise e.
Proof.
  intros Hm Hsq. unfold may_move, Block_can_enter. unfold_M.
  destruct (nx >? -1) eqn:E1; [|done]. rewrite Hm.
  destruct (nx <? _) eqn:E2; [|done].
  destruct (ny >? -1) eqn:E3; [|done]. rewrite Hm. zbool.
  destruct (py_index (blocks m) 0) as [row0|e0] eqn:Hrow0.
  2:{ exfalso. change 0 with (Z.of_nat 0) in Hrow0. rewrite py_index_nat in Hrow0.
      destruct (blocks m !! 0%nat) eqn:H0; [done|].
      apply lookup_ge_None in H0. lia. }
  assert (Hlen : length row0 = length (blocks m)).
  { change 0 with (Z.of_nat 0) in Hrow0. rewrite py_index_nat in Hrow0.
    destruct (blocks m !! 0%nat) as [r0|] eqn:H0; [|done]. injection Hrow0 as ->.
    unfold square in Hsq. rewrite Forall_lookup in Hsq. by apply (Hsq _ _ H0). }
  destruct (ny <? _) eqn:E4; [|done]. rewrite Hm. zbool.
  rewrite Hlen in E4.
  destruct (square_block_exists (blocks m) ny nx Hsq) as [d Hd]; [lia..|].
  rewrite (locate_in_block (blocks m) ny nx d) by (done || lia).
  rewrite Hm, Hd. done.
Qed.

(** A running turn returns when the player's block can be located and the
    test of the [if] does not raise. *)
Lemma take_turn_returns dir w m cur :
  map w = Some m -> game_over (player w) = false ->
  locate_in (blocks m) (Player_y (player w)) (Player_x (player w)) = Ret cur ->
  (∀ e, (may_move (new_x dir (player w)) (new_y dir (player w))
           (turn_start dir w)).1 ≠ Raise e) ->
  (take_turn dir w).1 = Ret tt.
Proof.
  intros Hm Hgo Hcur Hno.
  destruct (take_turn_cases dir w m Hm Hgo)
    as [E|[E|(c & bc & bd & _ & E)]].
  - exfalso. pose proof (take_turn_run dir w m Hm Hgo) as Hrun. cbv zeta in Hrun.
    rewrite Hcur in Hrun. fold (turn_start dir w) in Hrun.
    unfold mbind, M_bind in Hrun. rewrite attempt_move_unfold in Hrun.
    change (player (turn_start dir w))
      with (set_move_direction (Some dir) (player w)) in Hrun.
    change (new_x dir (set_move_direction (Some dir) (player w)))
      with (new_x dir (player w)) in Hrun.
    change (new_y dir (set_move_direction (Some dir) (player w)))
      with (new_y dir (player w)) in Hrun.
    destruct (may_move _ _ _).1 as [[|]|e] eqn:Hmay.
    + apply (may_move_true _ _ _ m) in Hmay as (_ & _ & Hdest & _); [|done].
      destruct (locate_in_Some _ _ _ _ Hcur) as [bc Hbc].
      assert (Hbd : is_Some (block_at (alter_block left_block cur (blocks m))
                (Z.to_nat (new_y dir (player w)), Z.to_nat (new_x dir (player w))))).
      { apply (locate_in_Some _ (new_y dir (player w)) (new_x dir (player w))).
        rewrite (locate_in_shape _ (blocks m)) by apply shape_alter_block. done. }
      destruct Hbd as [bd Hbd].
      erewrite do_move_run in Hrun; [|done|exact Hcur|exact Hbc|exact Hdest|exact Hbd].
      erewrite end_of_turn_run in Hrun by reflexivity.
      rewrite Hrun in E. discriminate.
    + rewrite (end_of_turn_run _ m) in Hrun by done. rewrite Hrun in E. discriminate.
    + by apply (Hno e).
  - rewrite E. by rewrite (end_of_turn_run _ m).
  - rewrite E. by erewrite end_of_turn_run by reflexivity.
Qed.

Lemma keys_equal_inventory n p p' :
  inventory p = inventory p' -> keys_equal n p = keys_equal n p'.
Proof. unfold keys_equal, count_keys. by intros ->. Qed.

Lemma keys_equal_empty n p : 1 <= n -> inventory p = [] -> keys_equal n p = false.
Proof.
  intros Hn Hi. unfold keys_equal, count_keys. rewrite Hi.
  change (Z.of_nat (length (filter (fun s => s = "key"%string) []))) with 0.
  apply Z.eqb_neq. lia.
Qed.

(** The invariant looks at the map and at six fields of the player only. *)
Lemma shipped_inv_same w w' :
  shipped_inv w ->
  map w' = map w ->
  hydration (player w') = hydration (player w) ->
  inventory (player w') = inventory (player w) ->
  Player_x (player w') = Player_x (player w) ->
  Player_y (player w') = Player_y (player w) ->
  health (player w') = health (player w) ->
  game_over (player w') = game_over (player w) ->
  shipped_inv w'.
Proof.
  intros (Hh & Hi & Hmap) Em Eh Ei Ex Ey Ehe Ego.
  split; [congruence|]. split; [by rewrite Ei|].
  intros m Hm. rewrite Em in Hm.
  destruct (Hmap m Hm) as (Hsq & Hx & Hy & Hb & (n & Hn & Hwin) & Hbound & Hgo).
  rewrite Ex, Ey, Ehe, Ego.
  repeat (split; [done|]). split; [eauto|]. split; [done|].
  rewrite Hgo, Hwin. f_equal. by apply keys_equal_inventory.
Qed.

(** A level just started satisfies the invariant. *)
Lemma fresh_world_inv lvl tpl pb m' w' :
  maps !! lvl = Some tpl ->
  Map_build lvl tpl pb = Ret m' ->
  Player_x pb = player_start_x tpl -> Player_y pb = player_start_y tpl ->
  map w' = Some m' ->
  Player_x (player w') = player_start_x tpl ->
  Player_y (player w') = player_start_y tpl ->
  health (player w') = 100 -> hydration (player w') = 100 ->
  inventory (player w') = [] -> game_over (player w') = false ->
  shipped_inv w'.
Proof.
  intros Htpl Hbuild Hpx Hpy Hm Hx Hy Hhe Hhy Hinv Hgo.
  destruct (shipped_templates lvl tpl Htpl)
    as ((row0 & Hrow0 & Hlen0) & Hsx & Hsy & n & Hn & Hwin).
  destruct (Map_build_rows _ _ _ _ Hbuild) as (row0' & Hrow0' & _ & Hlen & Hrows).
  rewrite Hrow0 in Hrow0'. injection Hrow0' as <-.
  destruct (Map_build_rectangular _ _ _ _ Hbuild) as (_ & _ & _ & Hwc).
  assert (Hsq : square (blocks m')).
  { unfold square. eapply Forall_impl; [exact Hrows|]. simpl. intros row ->. lia. }
  split; [done|]. split; [rewrite Hinv; constructor|].
  intros m Hm'. rewrite Hm in Hm'. injection Hm' as <-.
  rewrite Hx, Hy, Hhe, Hgo.
  split; [done|]. split; [lia|]. split; [lia|]. split.
  - destruct (square_block_exists (blocks m') (player_start_y tpl) (player_start_x tpl) Hsq)
      as [b Hb]; [lia..|].
    exists b. split; [done|].
    apply (Map_build_lookup _ _ _ _ _ _ _ Hbuild) in Hb.
    apply build_block_Ret in Hb as (_ & _ & -> & _).
    apply bool_decide_eq_true_2. rewrite Hpx, Hpy. split; lia.
  - split; [exists n; split; [done|congruence]|]. split; [lia|].
    rewrite Hwc, Hwin. by rewrite keys_equal_empty.
Qed.

Lemma entered_player_game_over b p :
  game_over (entered_player b p) = game_over p.
Proof.
  unfold entered_player, item_enter_player, tile_enter_player.
  by destruct (Block_item b) as [[|]|], (Block_tiletype b).
Qed.

Lemma entered_player_only_keys b p :
  Forall (fun s => s = "key"%string) (inventory p) ->
  Forall (fun s => s = "key"%string) (inventory (entered_player b p)).
Proof.
  intros H. rewrite entered_player_inventory. apply Forall_app. split; [done|].
  case_decide; repeat constructor.
Qed.

(** The end-of-turn checks at full hydration, for a predicate that counts
    keys: health is kept and the game is over afterwards exactly when health
    is spent or the predicate holds. *)
Lemma end_of_turn_shipped w m n :
  map w = Some m -> win_condition m = keys_equal n ->
  hydration (player w) = 100 -> game_over (player w) = false ->
  health (player (end_of_turn w).2) = health (player w) ∧
  game_over (player (end_of_turn w).2) =
    (health (player (end_of_turn w).2) <=? 0) ||
    win_condition m (player (end_of_turn w).2).
Proof.
  intros Hm Hwin Hhy Hgo. rewrite (end_of_turn_run _ m) by done. simpl.
  unfold after_win_check, after_dehydration, after_lose_check. rewrite Hwin.
  destruct (player w) as [h c hy inv px py go cl md]. simpl in *. subst hy go.
  unfold keys_equal, count_keys.
  destruct (h <=? 0) eqn:E1; simpl; rewrite ?E1;
    (destruct (_ =? n) eqn:E2; simpl; rewrite ?E1, ?E2; done).
Qed.

Lemma take_turn_shipped_inv dir w : shipped_inv w -> shipped_inv (take_turn dir w).2.
Proof.
  intros Hinv. destruct (game_over (player w)) eqn:Hgo.
  - rewrite (take_turn_game_over _ _ Hgo), reset_level_unfold.
    destruct (choose_then_start (with_player (set_chosen_level None (player w)) w) eq_refl)
      as [(lvl & tpl & rest & m' & _ & Htpl & Hbuild & ->)|(cur & _ & ->)].
    + apply (fresh_world_inv lvl tpl _ m' _ Htpl Hbuild); try done.
      simpl. apply Hinv.
    + by apply (shipped_inv_same w).
  - destruct (map w) as [m|] eqn:Hm.
    2:{ rewrite take_turn_no_map by done. by apply (shipped_inv_same w). }
    pose proof Hinv as (Hhy & Hkeys & Hmap).
    destruct (Hmap m Hm) as (Hsq & Hx & Hy & Hb & (n & Hn & Hwin) & Hbound & Hgof).
    destruct (take_turn_cases dir w m Hm Hgo)
      as [E|[E|(cur & bc & bd & (Hnx & Hny & _ & _ & Hbd & _) & E)]]; rewrite E.
    + by apply (shipped_inv_same w).
    + destruct (end_of_turn_frame (turn_start dir w) m Hm) as (Ex & Ey & Ei & Eh & Em).
      destruct (end_of_turn_shipped (turn_start dir w) m n Hm Hwin Hhy Hgo) as (Ehe & Ego).
      split; [by rewrite Eh|]. split; [by rewrite Ei|].
      intros m' Hm'. rewrite Em in Hm'. simpl in Hm'. rewrite Hm in Hm'.
      injection Hm' as <-. rewrite Ex, Ey, Ego, Ehe. simpl.
      repeat (split; [done|]). split; [eauto|]. done.
    + set (w1 := moved_world _ _ _ _ _ _ _ _).
      destruct (moved_turn_facts dir w m cur bc bd Hm) as (_ & Ex & Ey & Eh & Ei & _ & Em).
      fold w1 in Ex, Ey, Eh, Ei, Em.
      assert (Hhy1 : hydration (player w1) = 100).
      { simpl. destruct (entered_player_hydration bd
                           (set_move_direction (Some dir) (player w))) as [->| ->]; done. }
      assert (Hgo1 : game_over (player w1) = false).
      { simpl. by rewrite entered_player_game_over. }
      destruct (end_of_turn_shipped w1 _ n eq_refl Hwin Hhy1 Hgo1) as (Ehe & Ego).
      assert (Hpos : 0 < health (player w)).
      { rewrite Hgo in Hgof. symmetry in Hgof. apply orb_false_iff in Hgof as [Hh _].
        zbool. lia. }
      split.
      { rewrite Eh. destruct (entered_player_hydration bd (player w)) as [->| ->]; done. }
      split; [rewrite Ei; by apply entered_player_only_keys|].
      intros m' Hm'. rewrite Em in Hm'. simpl in Hm'. injection Hm' as <-.
      rewrite Ex, Ey, Ego, Ehe. simpl.
      split; [eapply square_shape; [|exact Hsq]; by rewrite !shape_alter_block|].
      split; [done|]. split; [done|]. split.
      { exists (entered_block bd). split; [by apply block_at_alter_eq|].
        unfold entered_block. by destruct (Block_item bd) as [[|]|]. }
      split; [eauto|]. split; [|done].
      rewrite entered_player_health. simpl. case_decide; lia.
Qed.

Lemma setup_shipped_inv w : shipped_inv (setup w).2.
Proof.
  rewrite setup_unfold.
  destruct (choose_then_start (with_map None (with_player Player_new w)) eq_refl)
    as [(lvl & tpl & rest & m' & _ & Htpl & Hbuild & ->)|(cur & _ & ->)].
  - by apply (fresh_world_inv lvl tpl _ m' _ Htpl Hbuild).
  - split; [done|]. split; [constructor|]. intros m Hm. done.
Qed.

Lemma reachable_shipped_inv w : reachable w -> shipped_inv w.
Proof.
  induction 1 as [lines|w key _ IH]; [apply setup_shipped_inv|].
  unfold keyPressed.
  repeat case_match; auto using take_turn_shipped_inv, setup_shipped_inv.
Qed.

Lemma take_turn_shipped_outcome dir w :
  shipped_inv w ->
  (take_turn dir w).1 = Ret tt ∨ (take_turn dir w).1 = Raise EOFError ∨
  ((take_turn dir w).1 = Raise AttributeError ∧ map w = None).
Proof.
  intros (_ & _ & Hmap). destruct (game_over (player w)) eqn:Hgo.
  - rewrite (take_turn_game_over _ _ Hgo), reset_level_unfold.
    destruct (choose_then_start (with_player (set_chosen_level None (player w)) w) eq_refl)
      as [(lvl & tpl & rest & m' & _ & _ & _ & ->)|(cur & _ & ->)]; auto.
  - destruct (map w) as [m|] eqn:Hm.
    2:{ rewrite take_turn_no_map by done. auto. }
    left. destruct (Hmap m eq_refl) as (Hsq & Hx & Hy & (b & Hb & _) & _).
    apply (take_turn_returns dir w m _ Hm Hgo (locate_in_block _ _ _ _ Hy Hx Hb)).
    intros e. by apply (may_move_square _ _ _ m).
Qed.

Lemma setup_outcome w : (setup w).1 = Ret tt ∨ (setup w).1 = Raise EOFError.
Proof.
  rewrite setup_unfold.
  destruct (choose_then_start (with_map None (with_player Player_new w)) eq_refl)
    as [(lvl & tpl & rest & m' & _ & _ & _ & ->)|(cur & _ & ->)]; auto.
Qed.



(** X12: in every world the program can reach over the shipped catalogue,
    once a level is started its win predicate counts keys up to a positive
    target, health is above -8 and at most 100 (nothing heals, and no single
    step costs more than 8), and the game is over exactly when health is at
    most 0 or the number of keys in the inventory equals the target; while
    the game runs, health is positive. *)
Theorem shipped_game_over_iff_dead_or_won w m :
  reachable w ->
  map w = Some m ->
  ∃ n, 1 <= n ∧ win_condition m = keys_equal n ∧
       -8 < health (player w) <= 100 ∧
       (game_over (player w) = true ↔
          health (player w) <= 0 ∨ count_keys (player w) = n) ∧
       (game_over (player w) = false -> 0 < health (player w)).
Proof.
  intros Hreach Hm.
  destruct (reachable_shipped_inv w Hreach) as (_ & _ & Hmap).
  destruct (Hmap m Hm) as (_ & _ & _ & _ & (n & Hn & Hwin) & Hbound & Hgo).
  exists n. split; [done|]. split; [done|]. split; [done|].
  rewrite Hgo, Hwin. unfold keys_equal. split.
  - rewrite orb_true_iff, Z.leb_le, Z.eqb_eq. done.
  - intros H. apply orb_false_iff in H as [H _]. apply Z.leb_gt in H. done.
Qed.

Lemma shipped_game_over_witness :
  (reachable lost_world ∧ map lost_world = Some lost_map) ∧
  ∃ n, 1 <= n ∧ win_condition lost_map = keys_equal n ∧
       (game_over (player lost_world) = true ↔
          health (player lost_world) <= 0 ∨ count_keys (player lost_world) = n).
Proof.
  assert (Hm : map lost_world = Some lost_map) by by_compute.
  split; [split; [exact lost_world_reachable|exact Hm]|].
  destruct (shipped_game_over_iff_dead_or_won lost_world lost_map
              lost_world_reachable Hm) as (n & Hn & Hwin & _ & Hiff & _).
  exists n. split; [exact Hn|]. split; [exact Hwin|exact Hiff].
Defined.

(** X13: in every world the program can reach over the shipped catalogue
    the inventory holds nothing but "key" entries; so the player never has
    flippers and no Water tile ever lets the player in. *)
Theorem shipped_inventory_holds_only_keys w :
  reachable w ->
  Forall (fun s => s = "key"%string) (inventory (player w)) ∧
  count_keys (player w) = Z.of_nat (length (inventory (player w))) ∧
  Player_has "flippers" (player w) = false ∧
  TileType_can_enter Water (player w) = false.
Proof.
  intros Hreach.
  destruct (reachable_shipped_inv w Hreach) as (_ & Hkeys & _).
  assert (Hno : Player_has "flippers" (player w) = false).
  { unfold Player_has. apply bool_decide_eq_false_2. intros Hin.
    rewrite Forall_forall in Hkeys. by specialize (Hkeys _ Hin). }
  split; [done|]. split; [|split; [exact Hno|exact Hno]].
  unfold count_keys. f_equal. f_equal.
  induction Hkeys as [|s l Hs _ IH]; [done|].
  rewrite filter_cons_True by done. by f_equal.
Qed.

Lemma shipped_inventory_witness :
  reachable won_world ∧
  Forall (fun s => s = "key"%string) (inventory (player won_world)) ∧
  TileType_can_enter Water (player won_world) = false.
Proof.
  assert (H : reachable won_world) by (apply reachable_run_keys; constructor).
  split; [exact H|].
  destruct (shipped_inventory_holds_only_keys won_world H) as (H1 & _ & _ & H2).
  split; [exact H1|exact H2].
Defined.

(** X14: over the shipped catalogue no key press ever fails on a subscript,
    a dictionary key or a division: from any reachable world, a turn taken
    while a level is running returns normally, and a key press either returns
    or raises [EOFError] (the console has no level name left for a restart or
    reset) or, only while no map exists after such a failed restart,
    [AttributeError]. *)
Theorem shipped_key_press_outcomes :
  (∀ w m dir, reachable w -> map w = Some m -> game_over (player w) = false ->
     (take_turn dir w).1 = Ret tt) ∧
  (∀ w key, reachable w ->
     (keyPressed key w).1 = Ret tt ∨ (keyPressed key w).1 = Raise EOFError ∨
     ((keyPressed key w).1 = Raise AttributeError ∧ map w = None)).
Proof.
  split.
  - intros w m dir Hreach Hm Hgo.
    destruct (take_turn_shipped_outcome dir w (reachable_shipped_inv w Hreach))
      as [H|[H|[_ H]]]; [done| |congruence].
    exfalso. destruct (reachable_shipped_inv w Hreach) as (_ & _ & Hmap).
    destruct (Hmap m Hm) as (Hsq & Hx & Hy & (b & Hb & _) & _).
    rewrite (take_turn_returns dir w m _ Hm Hgo (locate_in_block _ _ _ _ Hy Hx Hb)) in H;
      [done|].
    intros e. by apply (may_move_square _ _ _ m).
  - intros w key Hreach. pose proof (reachable_shipped_inv w Hreach) as Hinv.
    unfold keyPressed.
    repeat case_match; auto using take_turn_shipped_outcome.
    destruct (setup_outcome w) as [->| ->]; auto.
Qed.

Lemma shipped_key_press_witness :
  (reachable demo_world ∧ map demo_world = Some demo_map ∧
   game_over (player demo_world) = false) ∧
  (take_turn "down" demo_world).1 = Ret tt.
Proof.
  assert (H1 : reachable demo_world) by constructor.
  assert (H2 : map demo_world = Some demo_map) by by_compute.
  assert (H3 : game_over (player demo_world) = false) by by_compute.
  split; [auto|].
  exact (proj1 shipped_key_press_outcomes demo_world demo_map "down" H1 H2 H3).
Defined.

(** ** When the player does move *)

(** The test of the [if] succeeds when its four comparisons hold and the
    destination block exists and accepts the player. *)
Lemma may_move_passes nx ny w m d :
  map w = Some m ->
  0 <= nx < grid_height (blocks m) ->
  0 <= ny < grid_width (blocks m) ->
  block_at (blocks m) (Z.to_nat ny, Z.to_nat nx) = Some d ->
  (may_move nx ny w).1 = Ret (TileType_can_enter (Block_tiletype d) (player w)).
Proof.
  intros Hm [Hx0 Hx1] [Hy0 Hy1] Hd. unfold grid_height in Hx1.
  assert (Hrow0 : ∃ row0, blocks m !! 0%nat = Some row0 ∧
                          grid_width (blocks m) = Z.of_nat (length row0)).
  { unfold grid_width in *. destruct (blocks m) as [|row0 rest]; [lia|]. eauto. }
  destruct Hrow0 as (row0 & Hr0 & Hw). rewrite Hw in Hy1.
  unfold may_move, Block_can_enter. unfold_M.
  destruct (nx >? -1) eqn:E1; [|zbool; lia]. rewrite Hm.
  destruct (nx <? _) eqn:E2; [|zbool; lia].
  destruct (ny >? -1) eqn:E3; [|zbool; lia]. rewrite Hm.
  change 0 with (Z.of_nat 0). rewrite py_index_nat, Hr0.
  destruct (ny <? _) eqn:E4; [|zbool; lia]. rewrite Hm.
  rewrite (locate_in_block _ ny nx d) by done. rewrite Hm, Hd. done.
Qed.

Lemma take_turn_moves dir w m bc d :
  map w = Some m -> game_over (player w) = false ->
  0 <= Player_x (player w) -> 0 <= Player_y (player w) ->
  block_at (blocks m)
    (Z.to_nat (Player_y (player w)), Z.to_nat (Player_x (player w))) = Some bc ->
  0 <= new_x dir (player w) < grid_height (blocks m) ->
  0 <= new_y dir (player w) < grid_width (blocks m) ->
  block_at (blocks m)
    (Z.to_nat (new_y dir (player w)), Z.to_nat (new_x dir (player w))) = Some d ->
  TileType_can_enter (Block_tiletype d) (player w) = true ->
  ∃ bd,
    block_at (alter_block left_block
                (Z.to_nat (Player_y (player w)), Z.to_nat (Player_x (player w)))
                (blocks m))
      (Z.to_nat (new_y dir (player w)), Z.to_nat (new_x dir (player w))) = Some bd ∧
    take_turn dir w =
      end_of_turn
        (moved_world (turn_start dir w) m
           (Z.to_nat (Player_y (player w)), Z.to_nat (Player_x (player w)))
           (Z.to_nat (new_y dir (player w)), Z.to_nat (new_x dir (player w)))
           bc bd (new_x dir (player w)) (new_y dir (player w))).
Proof.
  intros Hm Hgo Hx Hy Hbc Hnx Hny Hd Hcan.
  pose proof (locate_in_block _ _ _ _ Hy Hx Hbc) as Hcur.
  pose proof (locate_in_block _ _ _ _ (proj1 Hny) (proj1 Hnx) Hd) as Hdest.
  assert (Hbd : is_Some (block_at (alter_block left_block
              (Z.to_nat (Player_y (player w)), Z.to_nat (Player_x (player w))) (blocks m))
            (Z.to_nat (new_y dir (player w)), Z.to_nat (new_x dir (player w))))).
  { apply (locate_in_Some _ (new_y dir (player w)) (new_x dir (player w))).
    rewrite (locate_in_shape _ (blocks m)) by apply shape_alter_block. done. }
  destruct Hbd as [bd Hbd]. exists bd. split; [done|].
  rewrite (take_turn_run _ _ _ Hm Hgo). cbv zeta. rewrite Hcur.
  fold (turn_start dir w). unfold mbind, M_bind. rewrite attempt_move_unfold.
  change (player (turn_start dir w)) with (set_move_direction (Some dir) (player w)).
  change (new_x dir (set_move_direction (Some dir) (player w)))
    with (new_x dir (player w)).
  change (new_y dir (set_move_direction (Some dir) (player w)))
    with (new_y dir (player w)).
  rewrite (may_move_passes _ _ (turn_start dir w) m d) by done.
  change (player (turn_start dir w)) with (set_move_direction (Some dir) (player w)).
  rewrite can_enter_move_direction, Hcan.
  erewrite do_move_run; [reflexivity|done|exact Hcur|exact Hbc|exact Hdest|exact Hbd].
Qed.



(** ** Direction tokens outside up/down/left/right *)

Lemma new_xy_other dir p :
  dir ≠ "left"%string -> dir ≠ "right"%string ->
  dir ≠ "up"%string -> dir ≠ "down"%string ->
  new_x dir p = Player_x p ∧ new_y dir p = Player_y p.
Proof.
  intros Hl Hr Hu Hd. unfold new_x, new_y.
  apply String.eqb_neq in Hl, Hr, Hu, Hd. by rewrite Hl, Hr, Hu, Hd.
Qed.

(** C2, as stated, fails: in the fresh "demo" level the player stands on
    Ice at (2, 0); the token "jump" makes [take_turn] call [leave] and then
    [enter] on that block, and its tile turns from Ice into Water. *)
Lemma invalid_direction_counterexample :
  trace demo_world = [] ∧
  trace (take_turn "jump" demo_world).2 = [CallLeave 2 0; CallEnter 2 0] ∧
  tile_at demo_world 2 0 = Some Ice ∧
  tile_at (take_turn "jump" demo_world).2 2 0 = Some Water ∧
  ¬ stays_put demo_world (take_turn "jump" demo_world).2.
Proof.
  split_all; try by_compute.
  intros (_ & _ & _ & _ & Hmap & _).
  assert (H : tile_at (take_turn "jump" demo_world).2 2 0 = tile_at demo_world 2 0)
    by (unfold tile_at; by rewrite Hmap).
  vm_compute in H. discriminate.
Qed.

Lemma left_block_coords b :
  Block_x (left_block b) = Block_x b ∧ Block_y (left_block b) = Block_y b.
Proof. unfold left_block. by destruct (Block_tiletype b). Qed.

(** What [enter] on the block just left does to the player, in terms of the
    block [b] as it was before the [leave]. *)
Lemma entered_own_block_player b p :
  inventory (entered_player (left_block b) p) =
    inventory p ++ (if decide (Block_item b = Some Key) then ["key"%string] else []) ∧
  hydration (entered_player (left_block b) p) =
    (if decide (Block_tiletype b = Ice ∨ Block_tiletype b = Water)
     then 100 else hydration p) ∧
  health (entered_player (left_block b) p) =
    health p - (if decide (Block_tiletype b = Sludge) then 8 else 0).
Proof.
  destruct b as [t i hp bx by_]. unfold entered_player, left_block.
  destruct t, i as [[|]|]; simpl; rewrite ?app_nil_r; split_all; try reflexivity; lia.
Qed.

(** The block under the player after [leave] and then [enter] have run on
    it. *)
Lemma entered_own_block b :
  Block_tiletype (entered_block (left_block b)) =
    (if decide (Block_tiletype b = Ice) then Water else Block_tiletype b) ∧
  Block_item (entered_block (left_block b)) =
    (if decide (Block_item b = Some Key) then None else Block_item b) ∧
  Block_has_player (entered_block (left_block b)) = true.
Proof.
  destruct b as [t i hp bx by_]. unfold entered_block, left_block.
  destruct t, i as [[|]|]; simpl; split_all; reflexivity.
Qed.

(** C2, amended: a token outside up/down/left/right never changes the
    player's position, but the candidate destination is then the player's own
    block and the turn is resolved as a move onto it.

    Nothing moves (no [enter]/[leave] call, map, inventory and hydration
    untouched) when that block's [can_enter] refuses the player, and when the
    position fails the bounds test of lines 293-294 (x below the number of
    rows, y below the length of row 0).

    When the position passes the bounds test and the block's [can_enter]
    accepts the player, the turn returns and is exactly: [leave] on the
    player's block, [enter] on the same block, then the end-of-turn checks.
    The log gains the two calls in that order; the tile under the player
    turns from Ice into Water and is kept otherwise; a Key on the block is
    taken into the inventory; hydration is set to 100 when the tile was Ice
    or Water; health drops by 8 on Sludge, and then by the dehydration
    penalty. *)
Theorem invalid_direction_moves_onto_own_block dir w m :
  map w = Some m ->
  game_over (player w) = false ->
  dir ≠ "left"%string -> dir ≠ "right"%string ->
  dir ≠ "up"%string -> dir ≠ "down"%string ->
  let own := (Z.to_nat (Player_y (player w)), Z.to_nat (Player_x (player w))) in
  Player_x (player (take_turn dir w).2) = Player_x (player w) ∧
  Player_y (player (take_turn dir w).2) = Player_y (player w) ∧
  (stays_put w (take_turn dir w).2 ∨
   ∃ bc, block_at (blocks m) own = Some bc ∧
         TileType_can_enter (Block_tiletype bc) (player w) = true ∧
         take_turn dir w =
           end_of_turn
             (moved_world (turn_start dir w) m own own bc (left_block bc)
                (Player_x (player w)) (Player_y (player w)))) ∧
  (∀ bc, block_at (blocks m) own = Some bc ->
         TileType_can_enter (Block_tiletype bc) (player w) = false ->
         stays_put w (take_turn dir w).2) ∧
  (¬ (0 <= Player_x (player w) < grid_height (blocks m) ∧
      0 <= Player_y (player w) < grid_width (blocks m)) ->
   stays_put w (take_turn dir w).2) ∧
  (∀ bc,
     0 <= Player_x (player w) < grid_height (blocks m) ->
     0 <= Player_y (player w) < grid_width (blocks m) ->
     block_at (blocks m) own = Some bc ->
     TileType_can_enter (Block_tiletype bc) (player w) = true ->
     take_turn dir w =
       end_of_turn
         (moved_world (turn_start dir w) m own own bc (left_block bc)
            (Player_x (player w)) (Player_y (player w))) ∧
     (take_turn dir w).1 = Ret tt ∧
     (∃ evs,
        trace (take_turn dir w).2 =
          trace w ++ [CallLeave (Block_x bc) (Block_y bc);
                      CallEnter (Block_x bc) (Block_y bc)] ++ evs ∧
        Forall (fun e => is_move_event e = false) evs) ∧
     tile_of (take_turn dir w).2 own =
       Some (if decide (Block_tiletype bc = Ice) then Water else Block_tiletype bc) ∧
     item_of (take_turn dir w).2 own =
       Some (if decide (Block_item bc = Some Key) then None else Block_item bc) ∧
     inventory (player (take_turn dir w).2) =
       inventory (player w) ++
       (if decide (Block_item bc = Some Key) then ["key"%string] else []) ∧
     hydration (player (take_turn dir w).2) =
       (if decide (Block_tiletype bc = Ice ∨ Block_tiletype bc = Water)
        then 100 else hydration (player w)) ∧
     health (player (take_turn dir w).2) =
       health (player w)
       - (if decide (Block_tiletype bc = Sludge) then 8 else 0)
       - (if hydration (player (take_turn dir w).2) <? 10 then 2 else 0)).
Proof.
  intros Hm Hgo Hl Hr Hu Hd own.
  destruct (new_xy_other dir (player w) Hl Hr Hu Hd) as [Hnx Hny].
  split_all.
  - destruct (take_turn_cases dir w m Hm Hgo) as [E|[E|(cur & bc & bd & _ & E)]];
      rewrite E.
    + apply (stays_put_start dir w).
    + apply (stays_put_end_of_turn dir w m Hm).
    + destruct (moved_turn_facts dir w m cur bc bd Hm) as (_ & -> & _). exact Hnx.
  - destruct (take_turn_cases dir w m Hm Hgo) as [E|[E|(cur & bc & bd & _ & E)]];
      rewrite E.
    + apply (stays_put_start dir w).
    + apply (stays_put_end_of_turn dir w m Hm).
    + destruct (moved_turn_facts dir w m cur bc bd Hm) as (_ & _ & -> & _). exact Hny.
  - destruct (take_turn_cases dir w m Hm Hgo)
      as [E|[E|(cur & bc & bd & (Hx & Hy & Hcur & Hbc & Hbd & d & Hd' & Hcan) & E)]].
    + left. rewrite E. apply stays_put_start.
    + left. rewrite E. apply (stays_put_end_of_turn dir w m Hm).
    + right. rewrite Hnx, Hny in *. fold own in Hbd, Hd', E.
      assert (cur = own) as -> by (by eapply locate_in_nonneg).
      assert (d = bc) as -> by congruence.
      rewrite (block_at_alter_eq _ _ _ _ Hbc) in Hbd. injection Hbd as <-.
      exists bc. done.
  - intros bc0 Hbc0 Hno.
    destruct (take_turn_cases dir w m Hm Hgo)
      as [E|[E|(cur & bc & bd & (Hx & Hy & Hcur & Hbc & Hbd & d & Hd' & Hcan) & E)]].
    + rewrite E. apply stays_put_start.
    + rewrite E. apply (stays_put_end_of_turn dir w m Hm).
    + rewrite Hnx, Hny in *. fold own in Hd'. congruence.
  - intros Hoff.
    destruct (take_turn_cases_bounds dir w m Hm Hgo)
      as [E|[E|(cur & bc & bd & (Hx & Hy & _) & Hxh & Hyw & _)]].
    + rewrite E. apply stays_put_start.
    + rewrite E. apply (stays_put_end_of_turn dir w m Hm).
    + rewrite Hnx, Hny in *. destruct Hoff. lia.
  - intros bc Hx Hy Hbc Hcan.
    assert (E : take_turn dir w =
              end_of_turn
                (moved_world (turn_start dir w) m own own bc (left_block bc)
                   (Player_x (player w)) (Player_y (player w)))).
    { destruct (take_turn_moves dir w m bc bc Hm Hgo (proj1 Hx) (proj1 Hy) Hbc)
        as (bd & Hbd & E).
      - by rewrite Hnx.
      - by rewrite Hny.
      - by rewrite Hnx, Hny.
      - exact Hcan.
      - rewrite Hnx, Hny in Hbd, E. fold own in Hbd, E.
        rewrite (block_at_alter_eq _ _ _ _ Hbc) in Hbd. injection Hbd as <-.
        exact E. }
    pose proof (moved_turn_facts dir w m own bc (left_block bc) Hm) as F.
    cbv zeta in F. rewrite Hnx, Hny in F. fold own in F. rewrite <- E in F.
    destruct F as (Fret & _ & _ & Fhyd & Finv & Fhealth & Fmap).
    destruct (entered_own_block_player bc (player w)) as (Ei & Eh & Ehl).
    destruct (entered_own_block bc) as (Bt & Bi & _).
    destruct (left_block_coords bc) as [Cx Cy].
    assert (Hblock : block_at
                       (alter_block entered_block own
                          (alter_block left_block own (blocks m))) own
                     = Some (entered_block (left_block bc))).
    { apply block_at_alter_eq. by apply block_at_alter_eq. }
    split; [exact E|]. split; [exact Fret|].
    split; [|split; [|split; [|split; [|split]]]].
    + pose proof (end_of_turn_trace
                    (moved_world (turn_start dir w) m own own bc (left_block bc)
                       (Player_x (player w)) (Player_y (player w))) _ eq_refl) as Htr.
      rewrite <- E in Htr. unfold moved_world in Htr. cbn [trace] in Htr.
      rewrite Cx, Cy, <- !app_assoc in Htr. simpl in Htr.
      eexists. split; [exact Htr|apply end_of_turn_events_quiet].
    + rewrite <- Bt. unfold tile_of. rewrite Fmap. simpl. by rewrite Hblock.
    + rewrite <- Bi. unfold item_of. rewrite Fmap. simpl. by rewrite Hblock.
    + by rewrite Finv, Ei.
    + by rewrite Fhyd, Eh.
    + rewrite Fhealth, Ehl, Fhyd. reflexivity.
Qed.

Lemma invalid_direction_witness :
  (map demo_world = Some demo_map ∧ game_over (player demo_world) = false ∧
   block_at (blocks demo_map) (0%nat, 2%nat) = Some (mkBlock Ice None true 2 0)) ∧
  Player_x (player (take_turn "jump" demo_world).2) = Player_x (player demo_world) ∧
  Player_y (player (take_turn "jump" demo_world).2) = Player_y (player demo_world) ∧
  (take_turn "jump" demo_world).1 = Ret tt ∧
  (∃ evs,
     trace (take_turn "jump" demo_world).2 =
       trace demo_world ++ [CallLeave 2 0; CallEnter 2 0] ++ evs ∧
     Forall (fun e => is_move_event e = false) evs) ∧
  hydration (player (take_turn "jump" demo_world).2) = 100.
Proof.
  assert (H1 : map demo_world = Some demo_map) by by_compute.
  assert (H2 : game_over (player demo_world) = false) by by_compute.
  assert (H3 : block_at (blocks demo_map) (0%nat, 2%nat)
               = Some (mkBlock Ice None true 2 0)) by by_compute.
  assert (Hx : Player_x (player demo_world) = 2) by by_compute.
  assert (Hy : Player_y (player demo_world) = 0) by by_compute.
  assert (Hh : grid_height (blocks demo_map) = 6) by by_compute.
  assert (Hw : grid_width (blocks demo_map) = 6) by by_compute.
  split; [auto|].
  destruct (invalid_direction_moves_onto_own_block "jump" demo_world demo_map H1 H2)
    as (Ex & Ey & _ & _ & _ & Hmove); [done..|].
  split; [exact Ex|]. split; [exact Ey|].
  destruct (Hmove (mkBlock Ice None true 2 0)) as (_ & Hret & Htrace & _ & _ & _ & Hhyd & _).
  - rewrite Hx, Hh. lia.
  - rewrite Hy, Hw. lia.
  - rewrite Hx, Hy. exact H3.
  - reflexivity.
  - split; [exact Hret|]. split; [exact Htrace|exact Hhyd].
Defined.

(** ** The keys *)

Lemma take_turn_position_cases dir w m :
  map w = Some m -> game_over (player w) = false ->
  (Player_x (player (take_turn dir w).2), Player_y (player (take_turn dir w).2))
    = (Player_x (player w), Player_y (player w)) ∨
  (Player_x (player (take_turn dir w).2), Player_y (player (take_turn dir w).2))
    = (new_x dir (player w), new_y dir (player w)).
Proof.
  intros Hm Hgo.
  destruct (take_turn_cases dir w m Hm Hgo)
    as [E|[E|(cur & bc & bd & Hmove & E)]]; rewrite E.
  - left. cbn [snd]. by destruct (stays_put_start dir w) as (-> & -> & _).
  - left. by destruct (stays_put_end_of_turn dir w m Hm) as (-> & -> & _).
  - right. by destruct (moved_turn_facts dir w m cur bc bd Hm) as (_ & -> & -> & _).
Qed.

(** X16: while a level is running, "w" moves the player up (y - 1), "a"
    left (x - 1), "s" down (y + 1) and "d" right (x + 1), each by one cell or
    not at all; any key other than these four and "q" changes nothing in any
    world. *)
Theorem keys_move_one_cell w m :
  map w = Some m ->
  game_over (player w) = false ->
  let x := Player_x (player w) in
  let y := Player_y (player w) in
  let after key :=
    (Player_x (player (keyPressed key w).2), Player_y (player (keyPressed key w).2)) in
  (after "w"%string = (x, y) ∨ after "w"%string = (x, y - 1)) ∧
  (after "a"%string = (x, y) ∨ after "a"%string = (x - 1, y)) ∧
  (after "s"%string = (x, y) ∨ after "s"%string = (x, y + 1)) ∧
  (after "d"%string = (x, y) ∨ after "d"%string = (x + 1, y)) ∧
  ∀ key w0,
    key ≠ "w"%string -> key ≠ "a"%string -> key ≠ "s"%string ->
    key ≠ "d"%string -> key ≠ "q"%string ->
    keyPressed key w0 = (Ret tt, w0).
Proof.
  intros Hm Hgo x y after.
  split; [exact (take_turn_position_cases "up" w m Hm Hgo)|].
  split; [exact (take_turn_position_cases "left" w m Hm Hgo)|].
  split; [exact (take_turn_position_cases "down" w m Hm Hgo)|].
  split; [exact (take_turn_position_cases "right" w m Hm Hgo)|].
  intros key w0 H1 H2 H3 H4 H5. unfold keyPressed.
  apply String.eqb_neq in H1, H2, H3, H4, H5. by rewrite H1, H2, H3, H4, H5.
Qed.

Lemma keys_move_witness :
  (map demo_world = Some demo_map ∧ game_over (player demo_world) = false) ∧
  ((Player_x (player (keyPressed "s" demo_world).2),
    Player_y (player (keyPressed "s" demo_world).2))
     = (Player_x (player demo_world), Player_y (player demo_world)) ∨
   (Player_x (player (keyPressed "s" demo_world).2),
    Player_y (player (keyPressed "s" demo_world).2))
     = (Player_x (player demo_world), Player_y (player demo_world) + 1)).
Proof.
  assert (H1 : map demo_world = Some demo_map) by by_compute.
  assert (H2 : game_over (player demo_world) = false) by by_compute.
  split; [auto|].
  destruct (keys_move_one_cell demo_world demo_map H1 H2) as (_ & _ & Hs & _).
  exact Hs.
Defined.
